(** * internal.c: path joining, bounded file reads, literal escaping and
      position formatting

    A shallow embedding of [src/internal.c] and the properties of its
    functions.

    Conventions of the embedding.
    - A [char] is the integer value the C expression has ([Z]); plain [char]
      is signed on some ABIs and unsigned on others, so a byte above 0x7f is
      a negative value on the former and a value in 128..255 on the latter.
    - A C string is the list of the bytes of its memory image; the image is
      followed by the terminating NUL, so reading at the index that equals
      the length of the list yields 0, and [strlen] stops at the first 0.
    - A pointer that may be NULL is an [option].
    - [result] separates a normal return from undefined behaviour (an
      access outside an object).
    - The outcome of every allocation request is taken from a [heap]: the
      list of the outcomes of the coming requests.  The properties are
      stated for the heap that grants every request; the failure paths are
      evaluated on heaps that do not.
    - [int] and [size_t] counters of lengths and indices are unbounded
      integers: strings and files are shorter than INT_MAX bytes.  The
      conversions the code writes out ([(int) len], the [unsigned]
      conversion of [%o]) are modelled with their wrap-around. *)

From Stdlib Require Import Strings.String Strings.Ascii.
From Stdlib Require Import ZArith Lia Bool List.
From stdpp Require Import base list.
Import ListNotations.

Local Open Scope Z_scope.

(** ** C values, results and the allocator *)

Inductive result (A : Type) : Type :=
| Ret (a : A)
| Undef.
Arguments Ret {A} a.
Arguments Undef {A}.

#[global] Instance result_ret : MRet result := fun A a => Ret a.

#[global] Instance result_bind : MBind result := fun A B k m =>
  match m with
  | Ret a => k a
  | Undef => Undef
  end.

(** The outcomes of the allocation requests to come, the next one first;
    a request beyond the list is granted. *)
Definition heap := list bool.

Definition alloc (h : heap) : bool * heap :=
  match h with
  | [] => (true, [])
  | ok :: h' => (ok, h')
  end.

(** The heap after one request. *)
Definition after (h : heap) : heap := snd (alloc h).

(** The bytes of a string literal. *)
Definition str (s : String.string) : list Z :=
  map (fun a => Z.of_N (Ascii.N_of_ascii a)) (String.list_ascii_of_string s).
Arguments str s%_string.

(** ** <string.h> on memory images *)

Fixpoint strlen (s : list Z) : nat :=
  match s with
  | [] => 0%nat
  | c :: s' => if c =? 0 then 0%nat else S (strlen s')
  end.

(** [s[i]]; the byte after the image is the terminator. *)
Definition char_at (s : list Z) (i : nat) : Z := nth i s 0.

(** The string a pointer to the image denotes: the bytes before the
    first NUL. *)
Definition cstr (s : list Z) : list Z := take (strlen s) s.

(** [strchr(s, c)] as the offset of the match from [s]; the terminator
    is part of the string, so [c = 0] is found at offset [strlen s]. *)
Fixpoint strchr (s : list Z) (c : Z) : option nat :=
  match s with
  | [] => if c =? 0 then Some 0%nat else None
  | x :: s' =>
      if x =? c then Some 0%nat
      else if x =? 0 then None
      else option_map S (strchr s' c)
  end.

(** [strcpy (dst, src)] and [strcat (dst, src)] into an object of [cap]
    bytes: the result with its terminator has to fit. *)
Definition strcpy (cap : Z) (src : list Z) : result (list Z) :=
  if Z.of_nat (strlen src) + 1 <=? cap then Ret (cstr src) else Undef.

Definition strcat (cap : Z) (dst src : list Z) : result (list Z) :=
  if Z.of_nat (strlen dst) + Z.of_nat (strlen src) + 1 <=? cap
  then Ret (cstr dst ++ cstr src)
  else Undef.

(** ** pathjoin *)

(** Modelled from the spec: the separator [SEP] of internal.h (not under
    src/), the character '/'. *)
Definition SEP : Z := 47.

(** One round of the loop of [pathjoin] over the variable arguments.  The
    return value is the [int] the function returns and the new [*path]. *)
Fixpoint pathjoin (h : heap) (path : option (list Z))
    (segs : list (option (list Z))) : result (Z * option (list Z)) :=
  match segs with
  | [] => Ret (0, path)
  | seg :: segs' =>
      let seg := match seg with None => str "()" | Some s => s end in
      let len := Z.of_nat (strlen seg) + 1 in
      match path with
      | Some p =>
          let len := len + (Z.of_nat (strlen p) + 1) in
          let (ok, h') := alloc h in
          if negb ok then Ret (-1, None)
          else
            p1 ← (if (strlen p =? 0)%nat
                     || negb (char_at p (strlen p - 1) =? SEP)
                  then strcat len p (str "/")
                  else Ret p);
            let seg := if char_at seg 0 =? SEP then drop 1 seg else seg in
            p2 ← strcat len p1 seg;
            pathjoin h' (Some p2) segs'
      | None =>
          let (ok, h') := alloc h in
          if negb ok then Ret (-1, None)
          else
            p ← strcpy len seg;
            pathjoin h' (Some p) segs'
      end
  end.

(** ** Bounded file reads: fread_file_lim and read_file *)

(** A stdio stream open for reading: the bytes it has not delivered yet,
    the number of bytes after which the device fails (if it does), and the
    error indicator that [ferror] reads. *)
Record stream : Type := {
  rest : list Z;
  fault : option nat;
  ferror : bool
}.

(** The bytes the stream can still deliver: up to the end of the data or
    to the fault, whichever comes first. *)
Definition readable (f : stream) : nat :=
  match fault f with
  | Some k => Nat.min k (length (rest f))
  | None => length (rest f)
  end.

(** Whether the fault lies inside the data, so that reading up to it ends
    in an error and not in the end of the stream. *)
Definition faulty (f : stream) : bool :=
  match fault f with
  | Some k => (k <? length (rest f))%nat
  | None => false
  end.

(** [fread (ptr, 1, requested, stream)]: the bytes read and the stream
    after the call.  Fewer bytes than requested come back only at the end
    of the stream or at the fault; the latter sets the error indicator. *)
Definition fread (f : stream) (requested : Z) : list Z * stream :=
  let n := Nat.min (Z.to_nat requested) (readable f) in
  (take n (rest f),
   {| rest := drop n (rest f);
      fault := (fun k => (k - n)%nat) <$> fault f;
      ferror := ferror f || ((n <? Z.to_nat requested)%nat && faulty f) |}).

(** A file of the given content on a device that does not fail, as a
    successful [fopen (path, "r")] returns it. *)
Definition file (data : list Z) : stream :=
  {| rest := data; fault := None; ferror := false |}.

(** Cap file reads somewhat arbitrarily at 32 MB. *)
Definition MAX_READ_LEN : Z := 32 * 1024 * 1024.

(** The conversion of a [size_t] to [int] (32 bits, two's complement) and
    of an [int] to [size_t] (64 bits). *)
Definition to_int (x : Z) : Z := (x + 2 ^ 31) mod 2 ^ 32 - 2 ^ 31.
Definition to_size_t (x : Z) : Z := x mod 2 ^ 64.

Section BoundedFileReader.

(** The buffer size of <stdio.h>. *)
Variable BUFSIZ : Z.

(** The head of the loop: when fewer than [BUFSIZ + 1] bytes are free
    after [size], the object grows by half, or to [size + BUFSIZ + 1] if
    that is more.  The new size, or [None] when [realloc] fails. *)
Definition grow (h : heap) (alloc_sz size : Z) : option Z * heap :=
  if size + BUFSIZ + 1 >? alloc_sz then
    let a := alloc_sz + alloc_sz / 2 in
    let a := if a <? size + BUFSIZ + 1 then size + BUFSIZ + 1 else a in
    let (ok, h') := alloc h in
    (if ok then Some a else None, h')
  else (Some alloc_sz, h).

(** The loop of [fread_file_lim].  [buf] holds the [size] bytes read so
    far, [alloc_sz] is the size of the object [buf] points to.  Every round
    that goes on has read at least one byte, so [fuel] counts rounds; [None]
    is for the fuel running out. *)
Fixpoint fread_loop (fuel : nat) (h : heap) (f : stream) (max_len : Z)
    (buf : list Z) (alloc_sz size : Z) : option (option (list Z * Z)) :=
  match fuel with
  | O => None
  | S fuel' =>
      match grow h alloc_sz size with
      | (None, _) => Some None
      | (Some alloc_sz, h') =>
          let requested :=
            Z.min (if size <? max_len then max_len - size else 0)
                  (alloc_sz - size - 1) in
          let (bytes, f') := fread f requested in
          let count := Z.of_nat (length bytes) in
          let buf := buf ++ bytes in
          let size := size + count in
          if negb (count =? requested) || (requested =? 0) then
            if ferror f' then Some None
            else Some (Some (buf ++ [0], size))
          else fread_loop fuel' h' f' max_len buf alloc_sz size
      end
  end.

(** [fread_file_lim (stream, max_len, &length)]: the buffer returned, or
    NULL, with the value stored in [*length]. *)
Definition fread_file_lim (h : heap) (f : stream) (max_len : Z)
    : option (option (list Z * Z)) :=
  fread_loop (S (length (rest f))) h f max_len [] 0 0.

(** [read_file (path)], with [fs] for what [fopen (path, "r")] yields. *)
Definition read_file (h : heap) (fs : list Z -> option stream)
    (path : list Z) : option (option (list Z)) :=
  match fs path with
  | None => Some None
  | Some fp =>
      r ← fread_file_lim h fp MAX_READ_LEN;
      match r with
      | Some (result, len) =>
          if (len <=? MAX_READ_LEN) && (to_size_t (to_int len) =? len)
          then Some (Some result)
          else Some None
      | None => Some None
      end
  end.

End BoundedFileReader.

(** ** Escape/unescape of string literals *)

Definition escape_chars : list Z := [34; 7; 8; 9; 10; 11; 12; 13; 92].
Definition escape_names : list Z := [34; 97; 98; 116; 110; 118; 102; 114; 92].

(** [isprint] of <ctype.h> in the "C" locale: the characters from the
    space to the tilde. *)
Definition isprint (c : Z) : bool := (32 <=? c) && (c <=? 126).

(** Modelled from the spec: [CALLOC] of memory.h (not under src/), a
    zero-filled object of [n] bytes, or NULL when the request fails. *)
Definition CALLOC (h : heap) (n : nat) : option (list Z) :=
  if fst (alloc h) then Some (replicate n 0) else None.

(** Writing the bytes [bs] into the object [buf] from offset [e] on. *)
Definition write (buf : list Z) (e : nat) (bs : list Z) : result (list Z) :=
  if (e + length bs <=? length buf)%nat
  then Ret (take e buf ++ bs ++ drop (e + length bs) buf)
  else Undef.

(** The clamp that both functions start with: [cnt < 0 || cnt > strlen
    (text)] selects the whole string. *)
Definition clamp (text : list Z) (cnt : Z) : nat :=
  if (cnt <? 0) || (Z.of_nat (strlen text) <? cnt) then strlen text
  else Z.to_nat cnt.

(** The loops of [unescape] run over [w], the characters [s[i]] to
    [s[len - 1]], with [next] for [s[len]], which the last round may look
    at: [lookahead] is [s[i + 1]]. *)
Definition lookahead (w : list Z) (next : Z) : Z :=
  match w with
  | [] => next
  | d :: _ => d
  end.

(** The first loop: one more byte for every round, and a round at a
    backslash that [strchr] accepts the next character for skips that
    character. *)
Fixpoint unescape_size (w : list Z) (next : Z) (size : nat) : nat :=
  match w with
  | [] => size
  | c :: w' =>
      if (c =? 92)
         && bool_decide (is_Some (strchr escape_names (lookahead w' next)))
      then match w' with
           | [] => (size + 1)%nat
           | _ :: w'' => unescape_size w'' next (size + 1)%nat
           end
      else unescape_size w' next (size + 1)%nat
  end.

(** The second loop, writing through [t] into the object [res]. *)
Fixpoint unescape_fill (w : list Z) (next : Z) (res : list Z) (t : nat)
    : result (list Z) :=
  match w with
  | [] => Ret res
  | c :: w' =>
      match (if c =? 92 then strchr escape_names (lookahead w' next)
             else None) with
      | Some n =>
          res ← write res t [char_at escape_chars n];
          match w' with
          | [] => Ret res
          | _ :: w'' => unescape_fill w'' next res (t + 1)%nat
          end
      | None =>
          res ← write res t [c];
          unescape_fill w' next res (t + 1)%nat
      end
  end.

(** [unescape (s, len)]: the object returned, or NULL.  The outcome of
    [CALLOC] is not looked at, so a NULL is written through as soon as
    there is a character to write. *)
Definition unescape (h : heap) (s : list Z) (len : Z)
    : result (option (list Z)) :=
  let len := clamp s len in
  let w := take len s in
  let next := char_at s len in
  let size := unescape_size w next 0 in
  match CALLOC h (size + 1) with
  | Some res => res ← unescape_fill w next res 0; Ret (Some res)
  | None => if (len =? 0)%nat then Ret None else Undef
  end.

(** The first loop of [escape] over [w], the characters [text[0]] to
    [text[cnt - 1]]. *)
Fixpoint escape_len (w : list Z) (len : nat) : nat :=
  match w with
  | [] => len
  | c :: w' =>
      if negb (c =? 0) && bool_decide (is_Some (strchr escape_chars c))
      then escape_len w' (len + 2)%nat
      else if negb (isprint c) then escape_len w' (len + 4)%nat
      else escape_len w' (len + 1)%nat
  end.

(** The digits of [u] in base 8, the most significant first. *)
Fixpoint octal (fuel : nat) (u : Z) (digits : list Z) : list Z :=
  match fuel with
  | O => digits
  | S fuel' =>
      let digits := (48 + u mod 8) :: digits in
      if u / 8 =? 0 then digits else octal fuel' (u / 8) digits
  end.

(** What ["\\%03o"] prints for the [int] value [v]: a backslash and the
    octal digits of [v] converted to [unsigned int] (32 bits), padded with
    zeros to three digits. *)
Definition sprintf_03o (v : Z) : list Z :=
  let digits := octal 11 (v mod 2 ^ 32) [] in
  92 :: replicate (3 - length digits) 48 ++ digits.

(** The second loop, writing through [e] into [esc].  [sprintf] writes
    the terminating NUL after its output. *)
Fixpoint escape_fill (w : list Z) (esc : list Z) (e : nat)
    : result (list Z) :=
  match w with
  | [] => Ret esc
  | c :: w' =>
      match (if c =? 0 then None else strchr escape_chars c) with
      | Some p =>
          esc ← write esc e [92];
          esc ← write esc (e + 1)%nat [char_at escape_names p];
          escape_fill w' esc (e + 2)%nat
      | None =>
          if negb (isprint c) then
            esc ← write esc e (sprintf_03o c ++ [0]);
            escape_fill w' esc (e + 4)%nat
          else
            esc ← write esc e [c];
            escape_fill w' esc (e + 1)%nat
      end
  end.

(** [escape (text, cnt)]: the object returned, or NULL. *)
Definition escape (h : heap) (text : list Z) (cnt : Z)
    : result (option (list Z)) :=
  let cnt := clamp text cnt in
  let w := take cnt text in
  let len := escape_len w 0 in
  match CALLOC h (len + 1) with
  | Some esc => esc ← escape_fill w esc 0; Ret (Some esc)
  | None => if (cnt =? 0)%nat then Ret None else Undef
  end.

(** ** format_pos *)

(** The pointer [text + k]: it has to point into the memory image of
    [text] or at the NUL that follows it. *)
Definition offset (text : list Z) (k : Z) : result (list Z) :=
  if (0 <=? k) && (k <=? Z.of_nat (length text))
  then Ret (drop (Z.to_nat k) text)
  else Undef.

(** The conversions of [asprintf]: ["%*s"] pads [s] with spaces on the left
    up to the width (on the right when the width is negative), ["%-*s"]
    pads it on the right. *)
Definition pad_left (width : Z) (s : list Z) : list Z :=
  replicate (Z.to_nat width - length s) 32 ++ s.

Definition pad_right (width : Z) (s : list Z) : list Z :=
  s ++ replicate (Z.to_nat width - length s) 32.

Definition fmt_star (width : Z) (s : list Z) : list Z :=
  if width <? 0 then pad_right (- width) s else pad_left width s.

Definition fmt_minus_star (width : Z) (s : list Z) : list Z :=
  pad_right (Z.abs width) s.

(** [format_pos (text, pos)]: the object returned, or NULL.  The two calls
    of [escape] and [asprintf] take one allocation each, in this order. *)
Definition format_pos (h : heap) (text : list Z) (pos : Z)
    : result (option (list Z)) :=
  let window := 28 in
  let before := pos in
  let before := if before >? window then window else before in
  lp ← offset text (pos - before);
  left' ← escape h lp before;
  match left' with
  | None => Ret None
  | Some left' =>
      rp ← offset text pos;
      right' ← escape (after h) rp window;
      match right' with
      | None => Ret None
      | Some right' =>
          let llen := Z.of_nat (strlen left') in
          let rlen := Z.of_nat (strlen right') in
          let out :=
            if (llen <? window) && (rlen <? window) then
              fmt_star (window - llen) (str "<") ++ cstr left' ++ str "|=|"
              ++ cstr right' ++ fmt_minus_star (window - rlen) (str ">")
              ++ [10]
            else if llen <? window then
              fmt_star (window - llen) (str "<") ++ cstr left' ++ str "|=|"
              ++ cstr right' ++ str ">" ++ [10]
            else if rlen <? window then
              str "<" ++ cstr left' ++ str "|=|" ++ cstr right'
              ++ fmt_minus_star (window - rlen) (str ">") ++ [10]
            else
              str "<" ++ cstr left' ++ str "|=|" ++ cstr right' ++ str ">"
              ++ [10] in
          if fst (alloc (after (after h)))
          then Ret (Some (out ++ [0]))
          else Ret None
      end
  end.

(** ** print_chars and print_pos *)

(** A stdio stream open for writing is the list of the characters written
    to it so far.  [fputs (s, out)], which is also what [fprintf (out,
    "nil")] and [fprintf (out, "%s", s)] do, appends the string [s]; the
    code does not look at what these calls return.  Writing to a NULL
    stream is undefined. *)
Definition fputs (s : list Z) (out : option (list Z))
    : result (option (list Z)) :=
  match out with
  | Some o => Ret (Some (o ++ cstr s))
  | None => Undef
  end.

(** [print_chars (out, text, cnt)]: the [int] returned and the stream
    after the call.  [strlen] of the NULL that [escape] may return is
    undefined. *)
Definition print_chars (h : heap) (out : option (list Z))
    (text : option (list Z)) (cnt : Z) : result (Z * option (list Z)) :=
  match text with
  | None => out ← fputs (str "nil") out; Ret (3, out)
  | Some text =>
      let cnt := if cnt <? 0 then Z.of_nat (strlen text) else cnt in
      esc ← escape h text cnt;
      match esc with
      | None => Undef
      | Some esc =>
          let total := Z.of_nat (strlen esc) in
          out ← match out with
                | Some _ => fputs esc out
                | None => Ret None
                end;
          Ret (total, out)
      end
  end.

(** [print_pos (out, text, pos)]: the stream after the call. *)
Definition print_pos (h : heap) (out : option (list Z)) (text : list Z)
    (pos : Z) : result (option (list Z)) :=
  format ← format_pos h text pos;
  match format with
  | Some format => fputs format out
  | None => Ret out
  end.

(** ** Memory streams on a temporary file *)

(** Modelled from the spec: [struct memstream] of internal.h (not under
    src/), a stream with the buffer read back from it and its size.  The
    functions are the ones compiled where the C library has no
    [open_memstream]: the stream is a temporary file, a [stream] whose
    [rest] is what has been written to it. *)
Record memstream : Type := {
  ms_stream : option stream;
  ms_buf : option (list Z);
  ms_size : Z
}.

(** [rewind]: the whole file is to be read again, and the error indicator
    is cleared. *)
Definition rewind (f : stream) : stream :=
  {| rest := rest f; fault := fault f; ferror := false |}.

(** [init_memstream (ms)], with [tmp] for what [tmpfile ()] returns: the
    [int] returned and the handle. *)
Definition init_memstream (tmp : option stream) : Z * memstream :=
  let ms := {| ms_stream := tmp; ms_buf := None; ms_size := 0 |} in
  match ms_stream ms with
  | None => (-1, ms)
  | Some _ => (0, ms)
  end.

Section MemoryStream.

Variable BUFSIZ : Z.

(** [close_memstream (ms)], with [eof] for [fclose] returning EOF.
    [fread_file_lim] stores the length only when it returns a buffer. *)
Definition close_memstream (h : heap) (eof : bool) (ms : memstream)
    : option (result (Z * memstream)) :=
  match ms_stream ms with
  | None => Some Undef
  | Some f =>
      r ← fread_file_lim BUFSIZ h (rewind f) MAX_READ_LEN;
      let ms :=
        match r with
        | Some (buf, len) =>
            {| ms_stream := ms_stream ms; ms_buf := Some buf;
               ms_size := len |}
        | None =>
            {| ms_stream := ms_stream ms; ms_buf := None;
               ms_size := ms_size ms |}
        end in
      if eof
      then Some (Ret (-1, {| ms_stream := ms_stream ms; ms_buf := None;
                             ms_size := 0 |}))
      else Some (Ret (0, ms))
  end.

End MemoryStream.

(** ** Vocabulary of the statements *)

(** A memory image without a NUL: the image of a string is the string. *)
Definition nonzero (s : list Z) : Prop := Forall (fun c => c <> 0) s.

(** What appending the segment [seg] does to the accumulator [p]: a '/' is
    inserted unless [p] ends in one, and one leading '/' of [seg] goes. *)
Definition joined (p seg : list Z) : list Z :=
  (if (length p =? 0)%nat || negb (char_at p (length p - 1) =? SEP)
   then p ++ [SEP] else p)
  ++ (if char_at seg 0 =? SEP then drop 1 seg else seg).

(** The fault is met before [m] more bytes are read. *)
Definition hits (f : stream) (m : Z) : bool :=
  faulty f && match fault f with Some k => Z.of_nat k <? m | None => false end.

(** The number of bytes a read bounded by [m] gets out of the stream. *)
Definition obtained (f : stream) (m : Z) : Z := Z.min m (Z.of_nat (readable f)).

(** The characters of the control-escape set and the printable ones. *)
Definition control_escape (c : Z) : Prop := In c escape_chars.
Definition printable (c : Z) : Prop := 32 <= c <= 126.

(** What [escape] emits for one character. *)
Definition escaped (c : Z) : list Z :=
  match (if c =? 0 then None else strchr escape_chars c) with
  | Some p => [92; char_at escape_names p]
  | None => if negb (isprint c) then sprintf_03o c else [c]
  end.

(** The number of bytes the first loop of [escape] counts for one
    character. *)
Definition escaped_size (c : Z) : nat :=
  if negb (c =? 0) && bool_decide (is_Some (strchr escape_chars c)) then 2
  else if negb (isprint c) then 4 else 1.

(** The characters [escape] is defined on without regard to the
    signedness of [char]: the values of an [unsigned char]. *)
Definition byte_range (c : Z) : Prop := 0 <= c <= 255.

(** The characters of the round trip: the control-escape set and printable
    ASCII; and the ones that both functions leave alone. *)
Definition literal (c : Z) : Prop := control_escape c \/ printable c.
Definition plain (c : Z) : Prop := printable c /\ ~ control_escape c.

(** The windows of [format_pos]: the [min (pos, 28)] bytes that end at
    [pos], and up to 28 bytes of the string from [pos] on. *)
Definition left_window (text : list Z) (pos : Z) : list Z :=
  take (Z.to_nat (Z.min pos 28))
       (drop (Z.to_nat (pos - Z.min pos 28)) text).

Definition right_window (text : list Z) (pos : Z) : list Z :=
  take 28 (cstr (drop (Z.to_nat pos) text)).

(** The string that [escape] returns for the characters [w]. *)
Definition escaped_string (w : list Z) : result (list Z) :=
  e ← escape [] w (-1);
  Ret (match e with Some e => cstr e | None => [] end).

(** The line [format_pos] prints for the escaped windows [l] and [r]: a
    window shorter than 28 characters is padded with spaces to 27, outside
    its marker. *)
Definition layout (l r : list Z) : list Z :=
  (if (length l <? 28)%nat then replicate (27 - length l) 32 else [])
  ++ str "<" ++ l ++ str "|=|" ++ r ++ str ">"
  ++ (if (length r <? 28)%nat then replicate (27 - length r) 32 else [])
  ++ [10].

(** The accumulator of [pathjoin] after one more segment; a NULL segment
    stands for "()", and the first segment of a NULL accumulator is
    copied. *)
Definition appended (path : option (list Z)) (seg : option (list Z))
    : option (list Z) :=
  let s := cstr (default (str "()") seg) in
  Some (match path with
        | Some p => joined (cstr p) s
        | None => s
        end).

(** The heap grants its next [n] requests. *)
Definition grants (h : heap) (n : nat) : bool := forallb id (take n h).

(** What [unescape] makes of the characters [w] that [next] follows: a
    backslash and the character after it that [strchr] finds in
    [escape_names] are one character, every other character is itself. *)
Fixpoint unescaped (w : list Z) (next : Z) : list Z :=
  match w with
  | [] => []
  | c :: w' =>
      match (if c =? 92 then strchr escape_names (lookahead w' next)
             else None) with
      | Some n =>
          char_at escape_chars n
          :: match w' with
             | [] => []
             | _ :: w'' => unescaped w'' next
             end
      | None => c :: unescaped w' next
      end
  end.

(** What is left of one character after [escape] and [unescape]: the
    character, or its octal escape. *)
Definition octal_kept (c : Z) : list Z :=
  match strchr escape_chars c with
  | Some _ => [c]
  | None => if isprint c then [c] else sprintf_03o c
  end.

(** The handle after its user has written [data] to its stream. *)
Definition ms_written (data : list Z) (ms : memstream) : memstream :=
  {| ms_stream :=
       (fun f => {| rest := rest f ++ data; fault := fault f;
                    ferror := ferror f |}) <$> ms_stream ms;
     ms_buf := ms_buf ms;
     ms_size := ms_size ms |}.

(** The character that the escape at the head of [l] stands for, and what
    follows the escape. *)
Definition token (l : list Z) : option (Z * list Z) :=
  match l with
  | [] => None
  | c :: r =>
      if c =? 92 then
        match r with
        | [] => None
        | d :: r' =>
            match strchr escape_names d with
            | Some n => Some (char_at escape_chars n, r')
            | None =>
                match r' with
                | d1 :: d0 :: r'' =>
                    Some ((d - 48) * 64 + (d1 - 48) * 8 + (d0 - 48), r'')
                | _ => None
                end
            end
        end
      else Some (c, r)
  end.

(** * Properties *)

(** ** C strings *)

Lemma strlen_nonzero (s : list Z) : nonzero s -> strlen s = length s.
Proof.
  induction 1 as [|c s Hc _ IH]; simpl; [reflexivity|].
  destruct (Z.eqb_spec c 0); [contradiction|]. now rewrite IH.
Qed.

Lemma cstr_nonzero (s : list Z) : nonzero s -> cstr s = s.
Proof.
  intros H. unfold cstr. rewrite (strlen_nonzero s H). apply firstn_all.
Qed.

Lemma nonzero_cstr (s : list Z) : nonzero (cstr s).
Proof.
  unfold cstr, nonzero. induction s as [|c s IH]; simpl; [constructor|].
  destruct (Z.eqb_spec c 0); simpl; [constructor|]. now constructor.
Qed.

Lemma length_cstr (s : list Z) : length (cstr s) = strlen s.
Proof.
  unfold cstr. induction s as [|c s IH]; simpl; [reflexivity|].
  destruct (c =? 0); simpl; [reflexivity|]. now rewrite IH.
Qed.

Lemma strlen_cstr (s : list Z) : strlen (cstr s) = strlen s.
Proof. rewrite (strlen_nonzero _ (nonzero_cstr s)). apply length_cstr. Qed.

Lemma cstr_cstr (s : list Z) : cstr (cstr s) = cstr s.
Proof. apply cstr_nonzero, nonzero_cstr. Qed.

Lemma char_at_cstr (s : list Z) (i : nat) :
  (i < strlen s)%nat -> char_at (cstr s) i = char_at s i.
Proof.
  unfold char_at, cstr. revert i.
  induction s as [|c s IH]; simpl; intros i Hi; [lia|].
  destruct (c =? 0); simpl in *; [lia|].
  destruct i as [|i]; [reflexivity|]. apply IH. lia.
Qed.

Lemma nonzero_app (s t : list Z) : nonzero s -> nonzero t -> nonzero (s ++ t).
Proof. unfold nonzero. intros Hs Ht. apply Forall_app. now split. Qed.

Lemma strlen_le_length (s : list Z) : (strlen s <= length s)%nat.
Proof.
  induction s as [|c s IH]; cbn; [lia|]. destruct (c =? 0); lia.
Qed.

Lemma strlen_app_nul (a b : list Z) :
  nonzero a -> strlen (a ++ 0 :: b) = length a.
Proof.
  induction 1 as [|c a Hc _ IH]; cbn; [reflexivity|].
  destruct (Z.eqb_spec c 0); [contradiction|]. now rewrite IH.
Qed.

Lemma strlen_drop (s : list Z) (k : nat) :
  (k <= strlen s)%nat -> strlen (drop k s) = (strlen s - k)%nat.
Proof.
  revert k. induction s as [|c s IH]; intros k Hk.
  - now rewrite drop_nil.
  - destruct k as [|k]; [rewrite drop_0; lia|]. cbn in *.
    destruct (c =? 0); [lia|]. apply IH. lia.
Qed.

Lemma strlen_take (s : list Z) (k : nat) :
  (k <= strlen s)%nat -> strlen (take k s) = k.
Proof.
  revert k. induction s as [|c s IH]; intros k Hk.
  - cbn in Hk. now replace k with 0%nat by lia.
  - destruct k as [|k]; [reflexivity|]. cbn in *.
    destruct (c =? 0); [lia|]. f_equal. apply IH. lia.
Qed.

Lemma cstr_drop (s : list Z) (k : nat) :
  (k <= strlen s)%nat -> cstr (drop k s) = drop k (cstr s).
Proof.
  intros Hk. unfold cstr. rewrite strlen_drop by assumption.
  rewrite take_drop_commute. do 2 f_equal. lia.
Qed.

Lemma cstr_drop_1 (s : list Z) :
  char_at s 0 <> 0 -> cstr (drop 1 s) = drop 1 (cstr s).
Proof.
  unfold char_at, cstr. destruct s as [|c s]; simpl; [reflexivity|].
  intros Hc. destruct (Z.eqb_spec c 0); [contradiction|].
  now rewrite !drop_0.
Qed.

Lemma strlen_drop_1 (s : list Z) :
  char_at s 0 <> 0 -> strlen (drop 1 s) = (strlen s - 1)%nat.
Proof.
  unfold char_at. destruct s as [|c s]; simpl; [reflexivity|].
  intros Hc. destruct (Z.eqb_spec c 0); [contradiction|].
  rewrite drop_0. lia.
Qed.

(** ** pathjoin *)

Lemma pathjoin_append (p seg : list Z) (segs : list (option (list Z))) :
  pathjoin [] (Some p) (Some seg :: segs)
  = pathjoin [] (Some (joined (cstr p) (cstr seg))) segs.
Proof.
  cbn [pathjoin alloc negb]. unfold joined.
  rewrite length_cstr.
  assert (Hat : (strlen p =? 0)%nat || negb (char_at p (strlen p - 1) =? SEP)
     = (strlen p =? 0)%nat || negb (char_at (cstr p) (strlen p - 1) =? SEP)).
  { destruct (Nat.eqb_spec (strlen p) 0) as [|Hne]; [reflexivity|].
    simpl. rewrite char_at_cstr by lia. reflexivity. }
  rewrite <- Hat. clear Hat.
  assert (Hseg : char_at (cstr seg) 0 = char_at seg 0 \/ char_at seg 0 = 0).
  { destruct seg as [|c seg]; [now left|]. unfold char_at, cstr. simpl.
    destruct (Z.eqb_spec c 0); [now right | now left]. }
  assert (Hfit : forall q s : list Z,
     (strlen q <= strlen p + 1)%nat -> (strlen s <= strlen seg)%nat ->
     strcat (Z.of_nat (strlen seg) + 1 + (Z.of_nat (strlen p) + 1)) q s
     = Ret (cstr q ++ cstr s)).
  { intros q s Hq Hs. unfold strcat.
    destruct (Z.leb_spec (Z.of_nat (strlen q) + Z.of_nat (strlen s) + 1)
      (Z.of_nat (strlen seg) + 1 + (Z.of_nat (strlen p) + 1)));
      [reflexivity | lia]. }
  set (sep := (strlen p =? 0)%nat || negb (char_at p (strlen p - 1) =? SEP)).
  assert (Hp1 : exists q, (if sep
      then strcat (Z.of_nat (strlen seg) + 1 + (Z.of_nat (strlen p) + 1)) p
             (str "/")
      else Ret p) = Ret q
    /\ cstr q = (if sep then cstr p ++ [SEP] else cstr p)
    /\ (strlen q <= strlen p + 1)%nat).
  { destruct sep.
    - exists (cstr p ++ [SEP]). split; [|split].
      + unfold strcat. change (strlen (str "/")) with 1%nat.
        destruct (Z.leb_spec (Z.of_nat (strlen p) + Z.of_nat 1 + 1)
          (Z.of_nat (strlen seg) + 1 + (Z.of_nat (strlen p) + 1)));
          [reflexivity | lia].
      + apply cstr_nonzero, nonzero_app; [apply nonzero_cstr|].
        constructor; [discriminate | constructor].
      + rewrite strlen_nonzero.
        * rewrite length_app, length_cstr. simpl. lia.
        * apply nonzero_app; [apply nonzero_cstr|].
          constructor; [discriminate | constructor].
    - exists p. split; [reflexivity | split; [reflexivity | lia]]. }
  destruct Hp1 as (q & -> & Hq & Hlen). cbn [mbind result_bind].
  assert (Hs : cstr (if char_at seg 0 =? SEP then drop 1 seg else seg)
     = (if char_at (cstr seg) 0 =? SEP then drop 1 (cstr seg) else cstr seg)
     /\ (strlen (if (char_at seg 0 =? SEP)%Z then drop 1 seg else seg)
         <= strlen seg)%nat).
  { destruct Hseg as [-> | H0].
    - destruct (Z.eqb_spec (char_at seg 0) SEP) as [E|];
        [|split; [reflexivity|lia]].
      assert (char_at seg 0 <> 0) by (rewrite E; discriminate).
      rewrite cstr_drop_1, strlen_drop_1 by assumption.
      split; [reflexivity|lia].
    - rewrite H0. change (0 =? SEP) with false. cbv iota.
      assert (E : cstr seg = []).
      { destruct seg as [|c seg]; [reflexivity|]. unfold char_at in H0.
        simpl in H0. subst c. reflexivity. }
      rewrite E. simpl. split; [reflexivity | lia]. }
  destruct Hs as [Hs Hslen].
  rewrite Hfit by assumption. cbn [mbind result_bind].
  rewrite Hq, Hs. reflexivity.
Qed.

Lemma pathjoin_first (seg : list Z) (segs : list (option (list Z))) :
  pathjoin [] None (Some seg :: segs) = pathjoin [] (Some (cstr seg)) segs.
Proof.
  cbn [pathjoin alloc negb]. unfold strcpy.
  rewrite Z.leb_refl. reflexivity.
Qed.

(** The failure paths of the allocations. *)
Lemma pathjoin_alloc_failure :
  pathjoin [false] None [Some (str "a")] = Ret (-1, None)
  /\ pathjoin [true; false] None [Some (str "a"); Some (str "b")]
     = Ret (-1, None).
Proof. split; reflexivity. Qed.

(** C7: a segment appended to an accumulator is joined with exactly one
    separator (one is inserted unless the accumulator ends in one, and one
    leading separator of the segment is dropped).  From an empty
    accumulator, ["a"; "b"; "c"] joins to "a/b/c", ["a/"; "/b"] joins to
    "a/b", and a NULL segment is the component "()": ["a"; NULL] joins to
    "a/()". *)
Theorem pathjoin_examples :
  (forall (p seg : list Z) (segs : list (option (list Z))),
     pathjoin [] (Some p) (Some seg :: segs)
     = pathjoin [] (Some (joined (cstr p) (cstr seg))) segs)
  /\ pathjoin [] None [Some (str "a"); Some (str "b"); Some (str "c")]
     = Ret (0, Some (str "a/b/c"))
  /\ pathjoin [] None [Some (str "a/"); Some (str "/b")]
     = Ret (0, Some (str "a/b"))
  /\ pathjoin [] None [Some (str "a"); None] = Ret (0, Some (str "a/()")).
Proof.
  split; [exact pathjoin_append|].
  repeat split; vm_compute; reflexivity.
Qed.

(** C10: the first segment of an empty (NULL) accumulator is copied as it
    is, a leading separator included; stripping applies to the segments
    appended after it, so ["/a"; "b"] joins to "/a/b". *)
Theorem pathjoin_first_segment_verbatim :
  (forall (seg : list Z) (segs : list (option (list Z))),
     pathjoin [] None (Some seg :: segs)
     = pathjoin [] (Some (cstr seg)) segs)
  /\ pathjoin [] None [Some (str "/a")] = Ret (0, Some (str "/a"))
  /\ pathjoin [] None [Some (str "/a"); Some (str "b")]
     = Ret (0, Some (str "/a/b")).
Proof.
  split; [exact pathjoin_first|].
  split; vm_compute; reflexivity.
Qed.

(** ** fread_file_lim and read_file *)

Section BoundedFileReaderFacts.

Variable BUFSIZ : Z.
Hypothesis BUFSIZ_pos : 0 < BUFSIZ.

Lemma grow_granted (alloc_sz size : Z) :
  exists a, grow BUFSIZ [] alloc_sz size = (Some a, [])
            /\ size + BUFSIZ + 1 <= a.
Proof.
  unfold grow. destruct (Z.gtb_spec (size + BUFSIZ + 1) alloc_sz).
  - cbn. eexists. split; [reflexivity|].
    destruct (Z.ltb_spec (alloc_sz + alloc_sz / 2) (size + BUFSIZ + 1)); lia.
  - eexists. split; [reflexivity | lia].
Qed.

Lemma fread_loop_spec (fuel : nat) :
  forall (f : stream) (max_len : Z) (buf : list Z) (alloc_sz size : Z),
    (length (rest f) < fuel)%nat ->
    size <= max_len ->
    fread_loop BUFSIZ fuel [] f max_len buf alloc_sz size
    = Some (if ferror f || hits f (max_len - size) then None
            else Some (buf ++ take (Z.to_nat (obtained f (max_len - size)))
                                   (rest f) ++ [0],
                       size + obtained f (max_len - size))).
Proof.
  induction fuel as [|fuel IH]; intros f max_len buf alloc_sz size Hfuel Hsize;
    [lia|].
  cbn [fread_loop].
  destruct (grow_granted alloc_sz size) as (a & -> & Ha).
  set (requested := Z.min (if size <? max_len then max_len - size else 0)
                          (a - size - 1)).
  set (m := max_len - size).
  assert (Hreq : 0 <= requested <= m /\ (requested = 0 <-> m = 0)).
  { unfold requested, m. destruct (Z.ltb_spec size max_len); lia. }
  clearbody requested. destruct Hreq as [Hreq Hreq0].
  unfold fread.
  set (n := Nat.min (Z.to_nat requested) (readable f)).
  cbv beta iota zeta.
  rewrite length_take.
  assert (Hrd : (readable f <= length (rest f))%nat).
  { unfold readable. destruct (fault f); lia. }
  assert (Hn : Z.of_nat (Nat.min n (length (rest f))) = Z.of_nat n) by lia.
  rewrite Hn.
  destruct (Z.eqb_spec requested 0) as [Hz|Hnz].
  - (* nothing is left of the budget *)
    rewrite orb_true_r. cbn [ferror].
    assert (Hn0 : n = 0%nat) by lia. rewrite Hn0.
    assert (Hm0 : m = 0) by tauto.
    replace (0 <? Z.to_nat requested)%nat with false
      by (symmetry; apply Nat.ltb_ge; lia).
    rewrite andb_false_l, orb_false_r.
    assert (Hh : hits f m = false).
    { unfold hits. destruct (fault f); [|apply andb_false_r].
      replace (Z.of_nat n0 <? m) with false
        by (symmetry; apply Z.ltb_ge; lia).
      apply andb_false_r. }
    rewrite Hh, orb_false_r.
    unfold obtained. replace (Z.min m (Z.of_nat (readable f))) with 0 by lia.
    destruct (ferror f); [reflexivity|]. cbn [orb].
    replace (size + Z.of_nat 0) with size by lia.
    replace (size + 0) with size by lia. change (Z.to_nat 0) with 0%nat.
    now rewrite <- app_assoc.
  - rewrite orb_false_r.
    destruct (Z.eqb_spec (Z.of_nat n) requested) as [Hfull|Hshort]; cbn [negb].
    + (* a full chunk: the loop goes on *)
      assert (Hnreq : n = Z.to_nat requested) by lia.
      assert (Hnpos : (0 < n)%nat) by lia.
      set (f' := Build_stream _ _ _).
      assert (Hrest : rest f' = drop n (rest f)) by reflexivity.
      assert (Hferr : ferror f' = ferror f).
      { unfold f'. cbn [ferror].
        replace (n <? Z.to_nat requested)%nat with false
          by (symmetry; apply Nat.ltb_ge; lia).
        now rewrite andb_false_l, orb_false_r. }
      assert (Hhits : hits f' (max_len - (size + Z.of_nat n)) = hits f m).
      { unfold hits, faulty, f'. cbn [rest fault]. unfold readable in *.
        destruct (fault f) as [k|]; cbn [fmap option_fmap option_map];
          [|reflexivity].
        rewrite length_drop.
        destruct (Nat.ltb_spec (k - n) (length (rest f) - n));
          destruct (Nat.ltb_spec k (length (rest f))); try lia; cbn [andb];
          try reflexivity.
        destruct (Z.ltb_spec (Z.of_nat (k - n))
                    (max_len - (size + Z.of_nat n)));
          destruct (Z.ltb_spec (Z.of_nat k) m); unfold m in *; try lia;
          reflexivity. }
      assert (Hob : obtained f' (max_len - (size + Z.of_nat n))
                    = obtained f m - Z.of_nat n).
      { unfold obtained, readable, f' in *. cbn [rest fault].
        destruct (fault f) as [k|]; cbn [fmap option_fmap option_map];
          rewrite length_drop; unfold m; lia. }
      rewrite IH; [| rewrite Hrest, length_drop; lia | lia].
      rewrite Hferr, Hhits, Hob, Hrest.
      destruct (ferror f || hits f m); [reflexivity|].
      assert (Hle : Z.of_nat n <= obtained f m) by (unfold obtained; lia).
      replace (size + Z.of_nat n + (obtained f m - Z.of_nat n))
        with (size + obtained f m) by lia.
      replace (Z.to_nat (obtained f m))
        with (n + Z.to_nat (obtained f m - Z.of_nat n))%nat by lia.
      rewrite <- take_take_drop.
      now rewrite <- !app_assoc.
    + (* a short read: the end of the stream, or the fault *)
      assert (Hlt : (n < Z.to_nat requested)%nat) by lia.
      assert (Hnr : n = readable f) by lia.
      cbn [ferror].
      replace (n <? Z.to_nat requested)%nat with true
        by (symmetry; apply Nat.ltb_lt; lia).
      rewrite andb_true_l.
      assert (Hh : hits f m = faulty f).
      { unfold hits, faulty in *. unfold readable in Hnr.
        destruct (fault f) as [k|]; [|reflexivity].
        destruct (Nat.ltb_spec k (length (rest f))); [|reflexivity].
        cbn [andb]. apply Z.ltb_lt. lia. }
      rewrite Hh.
      destruct (ferror f || faulty f); [reflexivity|].
      unfold obtained.
      replace (Z.min m (Z.of_nat (readable f))) with (Z.of_nat n) by lia.
      rewrite Nat2Z.id, <- app_assoc. reflexivity.
Qed.

Lemma to_int_small (x : Z) : 0 <= x < 2 ^ 31 -> to_size_t (to_int x) = x.
Proof.
  intros Hx. unfold to_size_t, to_int.
  rewrite (Z.mod_small (x + 2 ^ 31)) by lia.
  rewrite Z.mod_small; lia.
Qed.

Lemma fread_file_lim_closed (f : stream) (max_len : Z) :
  0 <= max_len ->
  fread_file_lim BUFSIZ [] f max_len
  = Some (if ferror f || hits f max_len then None
          else Some (take (Z.to_nat (obtained f max_len)) (rest f) ++ [0],
                     obtained f max_len)).
Proof.
  intros Hmax. unfold fread_file_lim.
  rewrite fread_loop_spec by lia.
  rewrite Z.sub_0_r. reflexivity.
Qed.

Lemma read_file_readable (fs : list Z -> option stream) (path data : list Z) :
  fs path = Some (file data) ->
  read_file BUFSIZ [] fs path
  = Some (Some (take (Z.to_nat MAX_READ_LEN) data ++ [0])).
Proof.
  intros Hfs. unfold read_file. rewrite Hfs.
  rewrite fread_file_lim_closed by (unfold MAX_READ_LEN; lia).
  cbn [ferror file hits faulty fault andb orb mbind option_bind].
  assert (Hlen : 0 <= obtained (file data) MAX_READ_LEN <= MAX_READ_LEN).
  { unfold obtained, MAX_READ_LEN. lia. }
  destruct (Z.leb_spec (obtained (file data) MAX_READ_LEN) MAX_READ_LEN);
    [|lia].
  rewrite to_int_small by (unfold MAX_READ_LEN in *; lia).
  rewrite Z.eqb_refl. cbn [andb rest]. do 3 f_equal.
  unfold obtained, readable. cbn [fault file rest].
  destruct (Z.le_ge_cases MAX_READ_LEN (Z.of_nat (length data))).
  - now rewrite Z.min_l.
  - rewrite Z.min_r, Nat2Z.id by assumption.
    rewrite firstn_all. symmetry. apply take_ge. lia.
Qed.

(** C8: with every [realloc] granted, [fread_file_lim] returns the bytes
    the stream delivers up to [max_len] of them, followed by a NUL, and
    their number, which is at most [max_len]; the end of the stream before
    [max_len] is a success.  It returns NULL when the error indicator of
    the stream is set at the read that ends the loop: the stream failed
    before [max_len] bytes and before its end (or was in error before). *)
Theorem fread_file_lim_spec (f : stream) (max_len : Z) :
  0 <= max_len ->
  fread_file_lim BUFSIZ [] f max_len
  = Some (if ferror f || hits f max_len then None
          else Some (take (Z.to_nat (obtained f max_len)) (rest f) ++ [0],
                     obtained f max_len))
  /\ 0 <= obtained f max_len <= max_len
  /\ (ferror f = false -> faulty f = false ->
      Z.of_nat (length (rest f)) <= max_len ->
      fread_file_lim BUFSIZ [] f max_len
      = Some (Some (rest f ++ [0], Z.of_nat (length (rest f))))).
Proof.
  intros Hmax. split; [now apply fread_file_lim_closed|].
  split; [unfold obtained; lia|].
  intros Herr Hfault Hlen. rewrite fread_file_lim_closed by assumption.
  unfold hits. rewrite Herr, Hfault. cbn [orb andb].
  assert (Hr : readable f = length (rest f)).
  { unfold readable, faulty in *. destruct (fault f) as [k|]; [|reflexivity].
    apply Nat.ltb_ge in Hfault. lia. }
  unfold obtained. rewrite Hr, Z.min_r, Nat2Z.id by lia.
  now rewrite firstn_all.
Qed.

Lemma read_file_within_cap (fs : list Z -> option stream)
    (path data : list Z) :
  fs path = Some (file data) ->
  Z.of_nat (length data) <= MAX_READ_LEN ->
  read_file BUFSIZ [] fs path = Some (Some (data ++ [0])).
Proof.
  intros Hfs Hle. rewrite (read_file_readable fs path data Hfs).
  rewrite take_ge by lia. reflexivity.
Qed.

(** C2: [read_file] on a readable file longer than MAX_READ_LEN does not
    return NULL: it returns the first MAX_READ_LEN bytes of the file, which
    are not the whole file. *)
Theorem read_file_oversize (fs : list Z -> option stream)
    (path data : list Z) :
  fs path = Some (file data) ->
  MAX_READ_LEN < Z.of_nat (length data) ->
  read_file BUFSIZ [] fs path
  = Some (Some (take (Z.to_nat MAX_READ_LEN) data ++ [0]))
  /\ read_file BUFSIZ [] fs path <> Some None
  /\ take (Z.to_nat MAX_READ_LEN) data <> data.
Proof.
  intros Hfs Hlong. rewrite (read_file_readable fs path data Hfs).
  split; [reflexivity | split; [discriminate|]].
  intros Heq. apply (f_equal length) in Heq.
  rewrite length_take in Heq. unfold MAX_READ_LEN in *. lia.
Qed.

End BoundedFileReaderFacts.

Lemma fread_file_lim_spec_witness :
  fread_file_lim 8192 [] (file (str "hello")) 10
  = Some (Some (str "hello" ++ [0], 5))
  /\ fread_file_lim 8192 [] (file (str "hello")) 3
     = Some (Some (str "hel" ++ [0], 3))
  /\ fread_file_lim 8192 []
       {| rest := str "hello"; fault := Some 2%nat; ferror := false |} 3
     = Some None.
Proof.
  split; [|split].
  - exact (proj1 (fread_file_lim_spec 8192 ltac:(lia)
                    (file (str "hello")) 10 ltac:(lia))).
  - exact (proj1 (fread_file_lim_spec 8192 ltac:(lia)
                    (file (str "hello")) 3 ltac:(lia))).
  - exact (proj1 (fread_file_lim_spec 8192 ltac:(lia)
                    {| rest := str "hello"; fault := Some 2%nat;
                       ferror := false |} 3 ltac:(lia))).
Defined.

Lemma read_file_oversize_witness :
  read_file 8192 []
    (fun _ => Some (file (replicate (Z.to_nat (MAX_READ_LEN + 1)) 97)))
    (str "f")
  = Some (Some (take (Z.to_nat MAX_READ_LEN)
                  (replicate (Z.to_nat (MAX_READ_LEN + 1)) 97) ++ [0]))
  /\ read_file 8192 []
       (fun _ => Some (file (replicate (Z.to_nat (MAX_READ_LEN + 1)) 97)))
       (str "f")
     <> Some None
  /\ take (Z.to_nat MAX_READ_LEN)
          (replicate (Z.to_nat (MAX_READ_LEN + 1)) 97)
     <> replicate (Z.to_nat (MAX_READ_LEN + 1)) 97.
Proof.
  apply (read_file_oversize 8192 ltac:(lia)
           (fun _ => Some (file (replicate (Z.to_nat (MAX_READ_LEN + 1)) 97)))
           (str "f")).
  - reflexivity.
  - rewrite length_replicate. unfold MAX_READ_LEN. lia.
Defined.

Lemma fread_file_lim_alloc_failure (BUFSIZ : Z) (f : stream) (max_len : Z) :
  0 < BUFSIZ -> fread_file_lim BUFSIZ [false] f max_len = Some None.
Proof.
  intros HB. unfold fread_file_lim. cbn [fread_loop]. unfold grow.
  destruct (Z.gtb_spec (0 + BUFSIZ + 1) 0); [reflexivity | lia].
Qed.

(** ** escape *)

Lemma write_fresh (pre bs : list Z) (n : nat) :
  (length bs <= n)%nat ->
  write (pre ++ replicate n 0) (length pre) bs
  = Ret ((pre ++ bs) ++ replicate (n - length bs) 0).
Proof.
  intros Hn. unfold write.
  rewrite length_app, length_replicate.
  destruct (Nat.leb_spec (length pre + length bs) (length pre + n)); [|lia].
  rewrite take_app_length.
  rewrite drop_app_ge by lia.
  rewrite drop_replicate.
  replace (length pre + length bs - length pre)%nat with (length bs) by lia.
  now rewrite <- app_assoc.
Qed.

(** A [sprintf] whose output is followed by free bytes: its NUL lands on
    one of them and leaves the zero that was there. *)
Lemma write_fresh_nul (pre bs : list Z) (n : nat) :
  (length bs < n)%nat ->
  write (pre ++ replicate n 0) (length pre) (bs ++ [0])
  = Ret ((pre ++ bs) ++ replicate (n - length bs) 0).
Proof.
  intros Hn. rewrite write_fresh by (rewrite length_app; simpl; lia).
  rewrite length_app. simpl.
  replace (n - length bs)%nat with (S (n - (length bs + 1))) by lia.
  simpl. now rewrite <- !app_assoc.
Qed.

Lemma strchr_escape_chars (c : Z) (p : nat) :
  c <> 0 -> strchr escape_chars c = Some p ->
  strchr escape_names (char_at escape_names p) = Some p
  /\ char_at escape_chars p = c /\ char_at escape_names p <> 0
  /\ (p < 9)%nat.
Proof.
  intros Hc. unfold escape_chars. cbn [strchr].
  repeat match goal with
  | |- context [?x =? c] => destruct (Z.eqb_spec x c) as [<-|?]
  end; cbn;
  try (intros [= <-]; repeat split; (reflexivity || discriminate || lia)).
  destruct c; try discriminate. contradiction.
Qed.

Lemma strchr_escape_chars_None (c : Z) :
  strchr escape_chars c = None -> ~ In c escape_chars.
Proof.
  unfold escape_chars. cbn [strchr].
  repeat match goal with
  | |- context [?x =? c] => destruct (Z.eqb_spec x c) as [<-|?]
  end; cbn; try discriminate.
  intros _ H. repeat (destruct H as [H|H]; [contradiction|]). exact H.
Qed.

Lemma sprintf_03o_length (c : Z) :
  0 <= c < 512 -> length (sprintf_03o c) = 4%nat.
Proof.
  intros Hc. unfold sprintf_03o.
  rewrite Z.mod_small by lia.
  cbn [octal].
  destruct (Z.eqb_spec (c / 8) 0) as [|H1]; [reflexivity|].
  destruct (Z.eqb_spec (c / 8 / 8) 0) as [|H2]; [reflexivity|].
  destruct (Z.eqb_spec (c / 8 / 8 / 8) 0) as [|H3]; [reflexivity|].
  exfalso. apply H3. rewrite !Z.div_div by lia. apply Z.div_small. lia.
Qed.

Lemma escaped_length (c : Z) :
  byte_range c -> length (escaped c) = escaped_size c.
Proof.
  intros Hc. assert (0 <= c < 512) by (unfold byte_range in Hc; lia).
  unfold escaped, escaped_size.
  destruct (c =? 0); cbn [negb andb].
  - destruct (isprint c); cbn [negb]; [reflexivity|].
    now apply sprintf_03o_length.
  - destruct (strchr escape_chars c) as [p|].
    + rewrite bool_decide_eq_true_2 by eauto. reflexivity.
    + rewrite bool_decide_eq_false_2 by (intros [? ?]; discriminate).
      destruct (isprint c); cbn [negb]; [reflexivity|].
      now apply sprintf_03o_length.
Qed.

Lemma escape_len_sum (w : list Z) (len : nat) :
  escape_len w len = (len + sum_list (escaped_size <$> w))%nat.
Proof.
  revert len. induction w as [|c w IH]; intros len; cbn [escape_len].
  - cbn. lia.
  - rewrite fmap_cons. cbn [sum_list sum_list_with id].
    assert (Hc : escaped_size c
      = if negb (c =? 0) && bool_decide (is_Some (strchr escape_chars c))
        then 2%nat else if negb (isprint c) then 4%nat else 1%nat)
      by reflexivity.
    revert Hc.
    destruct (negb (c =? 0) && bool_decide (is_Some (strchr escape_chars c)));
      [intros Hc; rewrite IH; lia|].
    destruct (negb (isprint c)); intros Hc; rewrite IH; lia.
Qed.

Lemma escaped_flat_length (w : list Z) :
  Forall byte_range w ->
  length (flat_map escaped w) = sum_list (escaped_size <$> w).
Proof.
  induction 1 as [|c w Hc _ IH]; [reflexivity|].
  rewrite fmap_cons. cbn [flat_map sum_list sum_list_with id].
  rewrite length_app, IH, (escaped_length c Hc). reflexivity.
Qed.

(** One round of the second loop of [escape] on an object whose bytes
    from [e] on are zero: the escaped character is written there. *)
Lemma escape_fill_step (c : Z) (w pre : list Z) (k : nat) :
  byte_range c ->
  (escaped_size c <= k)%nat ->
  escape_fill (c :: w) (pre ++ replicate (S k) 0) (length pre)
  = escape_fill w ((pre ++ escaped c) ++ replicate (S (k - escaped_size c)) 0)
      (length (pre ++ escaped c)).
Proof.
  intros Hc Hk. pose proof (escaped_length c Hc) as Hlen.
  cbn [escape_fill]. unfold escaped, escaped_size in *.
  destruct (if c =? 0 then None else strchr escape_chars c) as [p|] eqn:Ep.
  - assert (Hsz : negb (c =? 0)
                  && bool_decide (is_Some (strchr escape_chars c)) = true).
    { destruct (c =? 0); [discriminate|]. rewrite Ep.
      now rewrite bool_decide_eq_true_2 by eauto. }
    rewrite Hsz in *.
    rewrite write_fresh by (simpl; lia). cbn [mbind result_bind].
    replace (length pre + 1)%nat with (length (pre ++ [92]))
      by (rewrite length_app; reflexivity).
    rewrite write_fresh by (simpl; lia). cbn [mbind result_bind].
    rewrite <- !app_assoc. cbn [app].
    rewrite !length_app. cbn [length].
    repeat f_equal; lia.
  - assert (Hsz : negb (c =? 0)
                  && bool_decide (is_Some (strchr escape_chars c)) = false).
    { destruct (c =? 0); [reflexivity|]. rewrite Ep.
      now rewrite bool_decide_eq_false_2 by (intros [? ?]; discriminate). }
    rewrite Hsz in *.
    destruct (isprint c); cbn [negb] in *.
    + rewrite write_fresh by (simpl; lia). cbn [mbind result_bind].
      rewrite !length_app. cbn [length].
      repeat f_equal; lia.
    + rewrite write_fresh_nul by lia. cbn [mbind result_bind].
      rewrite !length_app, Hlen.
      repeat f_equal; lia.
Qed.

(** The second loop of [escape] on an object whose bytes from [e] on are
    zero and at least one more than the first loop counted: it writes the
    escaped characters one after the other and stays inside the object. *)
Lemma escape_fill_spec (w : list Z) :
  Forall byte_range w ->
  forall (pre : list Z) (k : nat),
    (sum_list (escaped_size <$> w) <= k)%nat ->
    escape_fill w (pre ++ replicate (S k) 0) (length pre)
    = Ret ((pre ++ flat_map escaped w)
           ++ replicate (S k - sum_list (escaped_size <$> w)) 0).
Proof.
  induction 1 as [|c w Hc Hw IH]; intros pre k Hk.
  - cbn. now rewrite app_nil_r.
  - rewrite fmap_cons in *. cbn [sum_list sum_list_with id] in *.
    rewrite escape_fill_step by (assumption || lia).
    rewrite IH by lia. cbn [flat_map].
    rewrite <- !app_assoc. do 3 f_equal.
    f_equal. f_equal. lia.
Qed.

Lemma clamp_whole (s : list Z) : clamp s (-1) = strlen s.
Proof. reflexivity. Qed.

Lemma clamp_nil (cnt : Z) : clamp [] cnt = 0%nat.
Proof.
  unfold clamp. cbn [strlen].
  destruct ((cnt <? 0) || (Z.of_nat 0 <? cnt)) eqn:E; [reflexivity|].
  apply orb_false_iff in E. destruct E as [E1 E2].
  apply Z.ltb_ge in E1, E2. lia.
Qed.

Lemma clamp_le (text : list Z) (cnt : Z) : (clamp text cnt <= strlen text)%nat.
Proof.
  unfold clamp.
  destruct ((cnt <? 0) || (Z.of_nat (strlen text) <? cnt)) eqn:E; [lia|].
  apply orb_false_iff in E. destruct E as [E1 E2].
  apply Z.ltb_ge in E1, E2. lia.
Qed.

Lemma clamp_within (text : list Z) (cnt : Z) :
  0 <= cnt <= Z.of_nat (strlen text) -> clamp text cnt = Z.to_nat cnt.
Proof.
  intros H. unfold clamp.
  destruct (Z.ltb_spec cnt 0); [lia|].
  destruct (Z.ltb_spec (Z.of_nat (strlen text)) cnt); [lia|]. reflexivity.
Qed.

Lemma clamp_window (text : list Z) (cnt : Z) :
  0 <= cnt -> clamp text cnt = Nat.min (Z.to_nat cnt) (strlen text).
Proof.
  intros H. unfold clamp.
  destruct (Z.ltb_spec cnt 0); [lia|].
  destruct (Z.ltb_spec (Z.of_nat (strlen text)) cnt); cbn [orb]; lia.
Qed.

(** [escape] on the characters of an [unsigned char]: the object holds
    the escaped characters and the terminator, and nothing else. *)
Lemma escape_spec (h : heap) (text : list Z) (cnt : Z) :
  fst (alloc h) = true ->
  Forall byte_range (take (clamp text cnt) text) ->
  escape h text cnt
  = Ret (Some (flat_map escaped (take (clamp text cnt) text) ++ [0])).
Proof.
  intros Hh Hw. unfold escape, CALLOC. rewrite Hh.
  rewrite escape_len_sum. cbn [Nat.add].
  replace (sum_list (escaped_size <$> take (clamp text cnt) text) + 1)%nat
    with (S (sum_list (escaped_size <$> take (clamp text cnt) text))) by lia.
  pose proof (escape_fill_spec _ Hw [] _ (Nat.le_refl _)) as Hfill.
  cbn [app length] in Hfill. rewrite Hfill.
  cbn [mbind result_bind].
  replace (S (sum_list (escaped_size <$> take (clamp text cnt) text))
           - sum_list (escaped_size <$> take (clamp text cnt) text))%nat
    with 1%nat by lia.
  reflexivity.
Qed.

(** [escape] looks at the first [cnt] characters only. *)
Lemma escape_window (h : heap) (text : list Z) (cnt : Z) :
  escape h text cnt = escape h (take (clamp text cnt) text) (-1).
Proof.
  unfold escape. rewrite clamp_whole.
  rewrite (strlen_take _ _ (clamp_le text cnt)).
  now rewrite take_idemp.
Qed.

Lemma octal_nonzero (fuel : nat) :
  forall (u : Z) (digits : list Z),
    0 <= u -> nonzero digits -> nonzero (octal fuel u digits).
Proof.
  induction fuel as [|fuel IH]; intros u digits Hu Hd; cbn [octal];
    [assumption|].
  assert (Hd' : nonzero ((48 + u mod 8) :: digits)).
  { constructor; [|assumption]. pose proof (Z.mod_pos_bound u 8). lia. }
  destruct (u / 8 =? 0); [assumption|].
  apply IH; [apply Z.div_pos; lia | assumption].
Qed.

Lemma sprintf_03o_nonzero (c : Z) : nonzero (sprintf_03o c).
Proof.
  unfold sprintf_03o. constructor; [discriminate|].
  apply nonzero_app.
  - apply Forall_replicate. discriminate.
  - apply octal_nonzero; [|constructor].
    apply Z.mod_pos_bound. lia.
Qed.

Lemma escaped_nonzero (c : Z) : c <> 0 -> nonzero (escaped c).
Proof.
  intros Hc. unfold escaped. destruct (Z.eqb_spec c 0); [contradiction|].
  destruct (strchr escape_chars c) as [p|] eqn:Ep.
  - destruct (strchr_escape_chars c p Hc Ep) as (_ & _ & Hn & _).
    repeat constructor; [discriminate | assumption].
  - destruct (isprint c); cbn [negb].
    + repeat constructor. assumption.
    + apply sprintf_03o_nonzero.
Qed.

Lemma flat_escaped_nonzero (w : list Z) :
  nonzero w -> nonzero (flat_map escaped w).
Proof.
  induction 1 as [|c w Hc _ IH]; cbn [flat_map]; [constructor|].
  apply nonzero_app; [now apply escaped_nonzero | exact IH].
Qed.

Lemma escape_bytes (w : list Z) :
  nonzero w -> Forall byte_range w ->
  escape [] w (-1) = Ret (Some (flat_map escaped w ++ [0])).
Proof.
  intros Hnz Hw.
  assert (Hall : take (clamp w (-1)) w = w)
    by (rewrite clamp_whole, (strlen_nonzero w Hnz); apply firstn_all).
  rewrite escape_spec; [now rewrite Hall | reflexivity | now rewrite Hall].
Qed.

(** [%o] of a negative [char]: 11 digits after the backslash. *)
Lemma sprintf_03o_negative (c : Z) :
  -128 <= c < 0 -> length (sprintf_03o c) = 12%nat.
Proof.
  intros Hc.
  assert (Hall : forallb (fun n => (length (sprintf_03o (Z.of_nat n - 128))
                                    =? 12)%nat) (seq 0 128) = true)
    by (vm_compute; reflexivity).
  rewrite forallb_forall in Hall.
  specialize (Hall (Z.to_nat (c + 128))).
  replace (Z.of_nat (Z.to_nat (c + 128)) - 128) with c in Hall by lia.
  apply Nat.eqb_eq, Hall, in_seq. lia.
Qed.

(** A string that ends in a character of negative value: the output of
    [sprintf] does not fit into what is left of the object. *)
Lemma escape_fill_negative_last (c : Z) (pre : list Z) :
  -128 <= c < 0 ->
  escape_fill [c] (pre ++ replicate 5 0) (length pre) = Undef.
Proof.
  intros Hc. cbn [escape_fill].
  destruct (Z.eqb_spec c 0); [lia|].
  assert (Hnone : strchr escape_chars c = None).
  { unfold escape_chars. cbn [strchr].
    repeat match goal with
    | |- context [?x =? c] => destruct (Z.eqb_spec x c); [lia|]
    end.
    cbn. destruct (Z.eqb_spec c 0); [lia | reflexivity]. }
  rewrite Hnone.
  assert (Hnp : isprint c = false).
  { unfold isprint. destruct (Z.leb_spec 32 c); [lia | reflexivity]. }
  rewrite Hnp. cbn [negb]. unfold write.
  rewrite !length_app, length_replicate, (sprintf_03o_negative c Hc).
  cbn [length].
  destruct (Nat.leb_spec (length pre + (12 + 1)) (length pre + 5)); [lia|].
  reflexivity.
Qed.

Lemma escape_negative_undefined (c : Z) :
  -128 <= c < 0 -> escape [] [c] (-1) = Undef.
Proof.
  intros Hc. unfold escape, CALLOC. cbn [alloc fst].
  assert (Hclamp : clamp [c] (-1) = 1%nat).
  { rewrite clamp_whole. cbn [strlen].
    destruct (Z.eqb_spec c 0); [lia | reflexivity]. }
  rewrite Hclamp. cbn [take].
  pose proof (escape_fill_negative_last c [] Hc) as Hfill.
  cbn [app length] in Hfill.
  assert (Hlen : escape_len [c] 0 = 4%nat).
  { assert (Hnone : strchr escape_chars c = None).
    { unfold escape_chars. cbn [strchr].
      repeat match goal with
      | |- context [?x =? c] => destruct (Z.eqb_spec x c); [lia|]
      end.
      cbn. destruct (Z.eqb_spec c 0); [lia | reflexivity]. }
    cbn [escape_len]. rewrite Hnone.
    rewrite bool_decide_eq_false_2 by (intros [? ?]; discriminate).
    rewrite andb_false_r. unfold isprint.
    destruct (Z.leb_spec 32 c); [lia | reflexivity]. }
  rewrite Hlen. change (4 + 1)%nat with 5%nat.
  rewrite Hfill. reflexivity.
Qed.

(** C4: for a character of negative value (a byte above 0x7f where [char]
    is signed) the first loop of [escape] counts 4 bytes, and [sprintf]
    prints a backslash and the 11 octal digits of the value converted to
    [unsigned int]: 13 bytes with the terminator.  At the end of a string
    they are written into the 5 bytes that are left of the object; with 8
    more bytes of output to come they fit, and what stays of them is not
    the octal code of the byte (0x80 is 200). *)
Theorem escape_negative_char_overflows :
  escape_len [-128] 0 = 4%nat
  /\ sprintf_03o (-128) = str "\37777777600"
  /\ escape_fill [-128] (replicate 5 0) 0 = Undef
  /\ escape [] [-128] (-1) = Undef
  /\ escape [] (str "ab" ++ [-128]) (-1) = Undef
  /\ escape [] (-128 :: str "abcdefgh") (-1)
     = Ret (Some (str "\377abcdefgh" ++ [0]))
  /\ sprintf_03o 128 = str "\200".
Proof. repeat split; vm_compute; reflexivity. Qed.

(** ** unescape *)

Lemma unescape_size_plain (c : Z) (w : list Z) (next : Z) (size : nat) :
  c <> 92 ->
  unescape_size (c :: w) next size = unescape_size w next (size + 1).
Proof.
  intros Hc. cbn [unescape_size].
  destruct (Z.eqb_spec c 92); [contradiction|]. reflexivity.
Qed.

Lemma unescape_size_pair (d : Z) (n : nat) (w : list Z) (next : Z)
    (size : nat) :
  strchr escape_names d = Some n ->
  unescape_size (92 :: d :: w) next size = unescape_size w next (size + 1).
Proof.
  intros Hd. cbn [unescape_size lookahead]. rewrite Z.eqb_refl, Hd.
  now rewrite bool_decide_eq_true_2 by eauto.
Qed.

Lemma unescape_fill_plain (c : Z) (w : list Z) (next : Z) (pre : list Z)
    (k : nat) :
  c <> 92 ->
  unescape_fill (c :: w) next (pre ++ replicate (S k) 0) (length pre)
  = unescape_fill w next ((pre ++ [c]) ++ replicate k 0)
      (length (pre ++ [c])).
Proof.
  intros Hc. cbn [unescape_fill].
  destruct (Z.eqb_spec c 92); [contradiction|].
  rewrite write_fresh by (simpl; lia). cbn [mbind result_bind].
  rewrite length_app. cbn [length].
  now replace (S k - 1)%nat with k by lia.
Qed.

Lemma unescape_fill_pair (d : Z) (n : nat) (w : list Z) (next : Z)
    (pre : list Z) (k : nat) :
  strchr escape_names d = Some n ->
  unescape_fill (92 :: d :: w) next (pre ++ replicate (S k) 0) (length pre)
  = unescape_fill w next ((pre ++ [char_at escape_chars n]) ++ replicate k 0)
      (length (pre ++ [char_at escape_chars n])).
Proof.
  intros Hd. cbn [unescape_fill lookahead]. rewrite Z.eqb_refl, Hd.
  rewrite write_fresh by (simpl; lia). cbn [mbind result_bind].
  rewrite length_app. cbn [length].
  now replace (S k - 1)%nat with k by lia.
Qed.

(** A backslash that no escape name follows is copied like any other
    character. *)
Lemma unescape_fill_verbatim (c : Z) (w : list Z) (next : Z) (pre : list Z)
    (k : nat) :
  c <> 92 \/ strchr escape_names (lookahead w next) = None ->
  unescape_fill (c :: w) next (pre ++ replicate (S k) 0) (length pre)
  = unescape_fill w next ((pre ++ [c]) ++ replicate k 0)
      (length (pre ++ [c])).
Proof.
  intros Hc. cbn [unescape_fill].
  assert (Hnone : (if c =? 92 then strchr escape_names (lookahead w next)
                   else None) = None).
  { destruct Hc as [Hc| ->]; [|now destruct (c =? 92)].
    now destruct (Z.eqb_spec c 92). }
  rewrite Hnone.
  rewrite write_fresh by (simpl; lia). cbn [mbind result_bind].
  rewrite length_app. cbn [length].
  now replace (S k - 1)%nat with k by lia.
Qed.

Lemma unescape_size_plain_app (s w : list Z) (next : Z) :
  Forall (fun c => c <> 92) s ->
  forall size, unescape_size (s ++ w) next size
               = unescape_size w next (size + length s).
Proof.
  induction 1 as [|c s Hc _ IH]; intros size; cbn [length app].
  - now rewrite Nat.add_0_r.
  - rewrite unescape_size_plain by assumption. rewrite IH. f_equal. lia.
Qed.

Lemma unescape_fill_plain_app (s w : list Z) (next : Z) :
  Forall (fun c => c <> 92) s ->
  forall (pre : list Z) (k : nat),
    (length s <= k)%nat ->
    unescape_fill (s ++ w) next (pre ++ replicate (S k) 0) (length pre)
    = unescape_fill w next ((pre ++ s) ++ replicate (S k - length s) 0)
        (length (pre ++ s)).
Proof.
  induction 1 as [|c s Hc _ IH]; intros pre k Hk; cbn [length app] in *.
  - now rewrite app_nil_r, Nat.sub_0_r.
  - destruct k as [|k]; [lia|].
    rewrite unescape_fill_plain by assumption.
    rewrite IH by lia. rewrite <- !app_assoc. reflexivity.
Qed.

(** [unescape] copies a string without a backslash as it is. *)
Lemma unescape_no_backslash (s : list Z) :
  nonzero s -> Forall (fun c => c <> 92) s ->
  unescape [] s (-1) = Ret (Some (s ++ [0])).
Proof.
  intros Hnz Hs. unfold unescape, CALLOC. cbn [alloc fst].
  rewrite clamp_whole, (strlen_nonzero s Hnz), firstn_all.
  pose proof (unescape_size_plain_app s [] (char_at s (length s)) Hs 0)
    as Hsize.
  rewrite app_nil_r in Hsize. rewrite Hsize. cbn [unescape_size Nat.add].
  replace (length s + 1)%nat with (S (length s)) by lia.
  pose proof (unescape_fill_plain_app s [] (char_at s (length s)) Hs []
                (length s) (Nat.le_refl _)) as Hfill.
  rewrite app_nil_r in Hfill. cbn [app length unescape_fill] in Hfill.
  rewrite Hfill. cbn [mbind result_bind].
  now replace (S (length s) - length s)%nat with 1%nat by lia.
Qed.

(** The backslash that ends a string is replaced by the terminator. *)
Lemma unescape_lone_backslash (s : list Z) :
  nonzero s -> Forall (fun c => c <> 92) s ->
  unescape [] (s ++ [92]) (-1) = Ret (Some (s ++ [0; 0])).
Proof.
  intros Hnz Hs.
  assert (Hnz' : nonzero (s ++ [92])).
  { apply nonzero_app; [assumption|].
    constructor; [discriminate|constructor]. }
  unfold unescape, CALLOC. cbn [alloc fst].
  rewrite clamp_whole, (strlen_nonzero _ Hnz'), firstn_all.
  replace (char_at (s ++ [92]) (length (s ++ [92]))) with 0
    by (unfold char_at; now rewrite nth_overflow).
  rewrite (unescape_size_plain_app s [92] 0 Hs). cbn [unescape_size].
  change (strchr escape_names (lookahead [] 0)) with (Some 9%nat).
  rewrite bool_decide_eq_true_2 by eauto. cbn [Z.eqb Pos.eqb andb].
  replace (0 + length s + 1 + 1)%nat with (S (S (length s))) by lia.
  pose proof (unescape_fill_plain_app s [92] 0 Hs [] (S (length s))
                ltac:(lia)) as Hfill.
  cbn [app length] in Hfill. rewrite Hfill.
  replace (S (S (length s)) - length s)%nat with 2%nat by lia.
  cbn [unescape_fill lookahead Z.eqb Pos.eqb].
  change (strchr escape_names 0) with (Some 9%nat). cbn iota.
  change (char_at escape_chars 9) with 0.
  replace (write (s ++ replicate 2 0) (length s) [0])
    with (Ret (s ++ [0; 0]) : result (list Z)).
  - reflexivity.
  - symmetry. rewrite (write_fresh s [0] 2) by (simpl; lia).
    now rewrite <- app_assoc.
Qed.

(** C3: [unescape] copies a backslash that an unrecognized letter follows,
    and that letter, as they are; but for a backslash that ends the string
    [strchr] finds the terminator of [escape_names], and the byte written
    is the terminator of [escape_chars]: the backslash is lost. *)
Theorem unescape_trailing_backslash :
  unescape [] (str "\q") (-1) = Ret (Some (str "\q" ++ [0]))
  /\ strchr escape_names 0 = Some 9%nat
  /\ char_at escape_chars 9 = 0
  /\ unescape [] (str "\") (-1) = Ret (Some [0; 0])
  /\ cstr [0; 0] = []
  /\ unescape [] (str "ab\") (-1) = Ret (Some (str "ab" ++ [0; 0]))
  /\ cstr (str "ab" ++ [0; 0]) = str "ab".
Proof. repeat split; vm_compute; reflexivity. Qed.

(** ** escape and unescape together *)

Lemma literal_range (c : Z) : literal c -> byte_range c /\ c <> 0.
Proof.
  unfold literal, control_escape, printable, byte_range, escape_chars.
  intros [H|H]; [|lia]. cbn in H. lia.
Qed.

Lemma escaped_literal (c : Z) :
  literal c ->
  (exists n, escaped c = [92; char_at escape_names n]
     /\ strchr escape_names (char_at escape_names n) = Some n
     /\ char_at escape_chars n = c
     /\ char_at escape_names n <> 0)
  \/ (escaped c = [c] /\ c <> 92).
Proof.
  intros Hc. destruct (literal_range c Hc) as [_ Hnz].
  unfold escaped. destruct (Z.eqb_spec c 0); [contradiction|].
  destruct (strchr escape_chars c) as [p|] eqn:Ep.
  - left. exists p.
    destruct (strchr_escape_chars c p Hnz Ep) as (H1 & H2 & H3 & _).
    now repeat split.
  - right. pose proof (strchr_escape_chars_None c Ep) as Hnot.
    destruct Hc as [Hc|Hc]; [contradiction|].
    unfold isprint, printable in *.
    destruct (Z.leb_spec 32 c); [|lia]. destruct (Z.leb_spec c 126); [|lia].
    split; [reflexivity|]. intros ->. apply Hnot. cbn. tauto.
Qed.

Lemma escaped_plain (c : Z) : plain c -> escaped c = [c] /\ c <> 92.
Proof.
  intros [Hp Hn].
  destruct (escaped_literal c (or_intror Hp)) as [(n & _ & _ & Hc & _)|H];
    [|exact H].
  exfalso. apply Hn. unfold control_escape, escape_chars.
  rewrite <- Hc. unfold char_at, escape_chars.
  do 9 (destruct n as [|n]; [cbn; tauto|]).
  exfalso. cbn in Hc. destruct n; cbn in Hc; unfold printable in Hp; lia.
Qed.

(** [unescape] undoes [escape], loop by loop. *)
Lemma unescape_size_escaped (s : list Z) (next : Z) :
  Forall literal s ->
  forall size, unescape_size (flat_map escaped s) next size
               = (size + length s)%nat.
Proof.
  induction 1 as [|c s Hc _ IH]; intros size; cbn [flat_map length].
  - cbn. lia.
  - destruct (escaped_literal c Hc) as [(n & -> & Hn & _)|[-> Hne]]; cbn [app].
    + rewrite (unescape_size_pair _ n) by assumption. rewrite IH. lia.
    + rewrite unescape_size_plain by assumption. rewrite IH. lia.
Qed.

Lemma unescape_fill_escaped (s : list Z) (next : Z) :
  Forall literal s ->
  forall (pre : list Z) (k : nat),
    (length s <= k)%nat ->
    unescape_fill (flat_map escaped s) next (pre ++ replicate (S k) 0)
      (length pre)
    = Ret ((pre ++ s) ++ replicate (S k - length s) 0).
Proof.
  induction 1 as [|c s Hc _ IH]; intros pre k Hk; cbn [flat_map length] in *.
  - cbn. now rewrite app_nil_r.
  - destruct k as [|k]; [lia|].
    destruct (escaped_literal c Hc) as [(n & -> & Hn & Hcn & _)|[-> Hne]];
      cbn [app].
    + rewrite (unescape_fill_pair _ n) by assumption.
      rewrite IH by lia. rewrite Hcn, <- !app_assoc. reflexivity.
    + rewrite unescape_fill_plain by assumption.
      rewrite IH by lia. rewrite <- !app_assoc. reflexivity.
Qed.

(** C1: on a string of control-escape and printable ASCII characters,
    [escape] returns a string that [unescape] turns back into the
    original. *)
Theorem unescape_escape (s : list Z) :
  Forall literal s ->
  exists e, escape [] s (-1) = Ret (Some e)
            /\ unescape [] e (-1) = Ret (Some (s ++ [0]))
            /\ cstr (s ++ [0]) = s.
Proof.
  intros Hs.
  assert (Hnz : nonzero s).
  { eapply Forall_impl; [exact Hs|]. intros c Hc. now apply literal_range. }
  assert (Hrange : Forall byte_range s).
  { eapply Forall_impl; [exact Hs|]. intros c Hc. now apply literal_range. }
  exists (flat_map escaped s ++ [0]). split; [|split].
  - assert (Hw : take (clamp s (-1)) s = s)
      by (rewrite clamp_whole, (strlen_nonzero s Hnz); apply firstn_all).
    rewrite escape_spec; [now rewrite Hw | reflexivity | now rewrite Hw].
  - unfold unescape, CALLOC. cbn [alloc fst].
    rewrite clamp_whole, (strlen_app_nul _ [] (flat_escaped_nonzero s Hnz)).
    rewrite take_app_length.
    rewrite (unescape_size_escaped s _ Hs). cbn [Nat.add].
    replace (length s + 1)%nat with (S (length s)) by lia.
    pose proof (unescape_fill_escaped s 0 Hs [] _ (Nat.le_refl _)) as Hfill.
    cbn [app length] in Hfill.
    replace (char_at (flat_map escaped s ++ [0])
               (length (flat_map escaped s)))
      with 0 by (unfold char_at; now rewrite nth_middle).
    rewrite Hfill. cbn [mbind result_bind].
    now replace (S (length s) - length s)%nat with 1%nat by lia.
  - unfold cstr. rewrite (strlen_app_nul _ [] Hnz). apply take_app_length.
Qed.

(** C5: on a string of printable characters outside the control-escape
    set, [escape] and [unescape] both return the string itself. *)
Theorem escape_unescape_plain (s : list Z) :
  Forall plain s ->
  escape [] s (-1) = Ret (Some (s ++ [0]))
  /\ unescape [] s (-1) = Ret (Some (s ++ [0]))
  /\ cstr (s ++ [0]) = s.
Proof.
  intros Hs.
  assert (Hlit : Forall literal s).
  { eapply Forall_impl; [exact Hs|]. intros c [Hc _]. now right. }
  assert (Hnz : nonzero s).
  { eapply Forall_impl; [exact Hlit|]. intros c Hc. now apply literal_range. }
  assert (Hrange : Forall byte_range s).
  { eapply Forall_impl; [exact Hlit|]. intros c Hc. now apply literal_range. }
  assert (Hflat : flat_map escaped s = s).
  { clear Hlit Hnz Hrange. induction Hs as [|c s Hc _ IH]; [reflexivity|].
    cbn [flat_map]. destruct (escaped_plain c Hc) as [-> _].
    now rewrite IH. }
  assert (Hw : take (clamp s (-1)) s = s)
    by (rewrite clamp_whole, (strlen_nonzero s Hnz); apply firstn_all).
  split; [|split].
  - rewrite escape_spec;
      [now rewrite Hw, Hflat | reflexivity | now rewrite Hw].
  - apply unescape_no_backslash; [assumption|].
    eapply Forall_impl; [exact Hs|]. intros c Hc. now apply escaped_plain.
  - unfold cstr. rewrite (strlen_app_nul _ [] Hnz). apply take_app_length.
Qed.

(** C9: on the empty string, whatever the count and whatever follows the
    terminator in memory, [escape] and [unescape] return an object of one
    byte, the terminator: the empty string, and not NULL. *)
Theorem escape_unescape_empty (text : list Z) (cnt len : Z) :
  strlen text = 0%nat ->
  escape [] text cnt = Ret (Some [0])
  /\ unescape [] text len = Ret (Some [0])
  /\ cstr [0] = [].
Proof.
  intros Hempty.
  assert (Hclamp : forall k, clamp text k = 0%nat).
  { intros k. pose proof (clamp_le text k). lia. }
  unfold escape, unescape. rewrite !Hclamp.
  split; [|split]; reflexivity.
Qed.

Lemma escape_unescape_empty_witness :
  escape [] [0; 65; 66] 3 = Ret (Some [0])
  /\ unescape [] [0; 65; 66] 3 = Ret (Some [0])
  /\ cstr [0] = [].
Proof. apply (escape_unescape_empty [0; 65; 66] 3 3). reflexivity. Defined.

Lemma escape_alloc_failure :
  escape [false] [] (-1) = Ret None
  /\ escape [false] (str "a") (-1) = Undef
  /\ unescape [false] [] (-1) = Ret None
  /\ format_pos [false] [] 0 = Ret None.
Proof. repeat split. Qed.

Lemma unescape_escape_witness :
  exists e, escape [] [97; 34; 9; 92; 110; 10] (-1) = Ret (Some e)
            /\ unescape [] e (-1)
               = Ret (Some ([97; 34; 9; 92; 110; 10] ++ [0]))
            /\ cstr ([97; 34; 9; 92; 110; 10] ++ [0])
               = [97; 34; 9; 92; 110; 10].
Proof.
  apply (unescape_escape [97; 34; 9; 92; 110; 10]).
  repeat (apply Forall_cons_2;
          [unfold literal, printable, control_escape, escape_chars; cbn;
           lia|]).
  apply Forall_nil_2.
Defined.

Lemma escape_unescape_plain_witness :
  escape [] (str "hello world") (-1) = Ret (Some (str "hello world" ++ [0]))
  /\ unescape [] (str "hello world") (-1)
     = Ret (Some (str "hello world" ++ [0]))
  /\ cstr (str "hello world" ++ [0]) = str "hello world".
Proof.
  apply (escape_unescape_plain (str "hello world")).
  repeat (apply Forall_cons_2;
          [unfold plain, printable, control_escape, escape_chars; cbn;
           lia|]).
  apply Forall_nil_2.
Defined.

(** ** format_pos *)

Lemma format_pos_windows (text : list Z) (pos : Z) :
  0 <= pos <= Z.of_nat (strlen text) ->
  take (Z.to_nat pos) text
  = take (Z.to_nat (pos - Z.min pos 28)) text ++ left_window text pos
  /\ length (left_window text pos) = Z.to_nat (Z.min pos 28).
Proof.
  intros Hpos. pose proof (strlen_le_length text) as Hlen.
  unfold left_window. split.
  - rewrite take_take_drop. f_equal. lia.
  - rewrite length_take, length_drop. lia.
Qed.

(** With [CALLOC] granted, [escape] returns an object or runs into
    undefined behaviour; it does not return NULL. *)
Lemma escape_granted (w : list Z) (cnt : Z) :
  escape [] w cnt = Undef \/ exists e, escape [] w cnt = Ret (Some e).
Proof.
  unfold escape, CALLOC. cbn [alloc fst].
  destruct (escape_fill _ _ _) as [e|]; cbn [mbind result_bind]; eauto.
Qed.

Lemma escaped_string_bytes (w : list Z) :
  nonzero w -> Forall byte_range w ->
  escaped_string w = Ret (flat_map escaped w).
Proof.
  intros Hnz Hw. unfold escaped_string.
  rewrite (escape_bytes w Hnz Hw). cbn [mbind result_bind].
  unfold cstr.
  rewrite (strlen_app_nul _ []) by (now apply flat_escaped_nonzero).
  now rewrite take_app_length.
Qed.

(** The four templates of [format_pos] are one layout of the two escaped
    windows. *)
Lemma format_pos_layout (text : list Z) (pos : Z) :
  0 <= pos <= Z.of_nat (strlen text) ->
  format_pos [] text pos
  = (l ← escaped_string (left_window text pos);
     r ← escaped_string (right_window text pos);
     Ret (Some (layout l r ++ [0]))).
Proof.
  intros Hpos.
  pose proof (strlen_le_length text) as Hlen.
  unfold format_pos, escaped_string. cbv zeta.
  assert (Hbefore : (if pos >? 28 then 28 else pos) = Z.min pos 28).
  { destruct (Z.gtb_spec pos 28); lia. }
  rewrite Hbefore. unfold offset.
  destruct (Z.leb_spec 0 (pos - Z.min pos 28)); [|lia].
  destruct (Z.leb_spec (pos - Z.min pos 28) (Z.of_nat (length text))); [|lia].
  destruct (Z.leb_spec 0 pos); [|lia].
  destruct (Z.leb_spec pos (Z.of_nat (length text))); [|lia].
  cbn [andb mbind result_bind alloc after snd fst].
  rewrite (escape_window [] (drop (Z.to_nat (pos - Z.min pos 28)) text)).
  rewrite (clamp_within (drop (Z.to_nat (pos - Z.min pos 28)) text))
    by (rewrite strlen_drop; lia).
  fold (left_window text pos).
  destruct (escape_granted (left_window text pos) (-1)) as [-> | [l ->]];
    cbn [mbind result_bind]; [reflexivity|].
  rewrite escape_window.
  rewrite clamp_window by lia.
  change (Z.to_nat 28) with 28%nat.
  rewrite <- take_take. fold (cstr (drop (Z.to_nat pos) text)).
  fold (right_window text pos).
  destruct (escape_granted (right_window text pos) (-1)) as [-> | [r ->]];
    cbn [mbind result_bind]; [reflexivity|].
  do 3 f_equal. unfold layout.
  rewrite !length_cstr.
  unfold fmt_star, fmt_minus_star, pad_left, pad_right.
  change (length (str "<")) with 1%nat. change (length (str ">")) with 1%nat.
  destruct (Nat.ltb_spec (strlen l) 28) as [Hll|Hll];
    destruct (Nat.ltb_spec (strlen r) 28) as [Hrr|Hrr];
    destruct (Z.ltb_spec (Z.of_nat (strlen l)) 28); try lia;
    destruct (Z.ltb_spec (Z.of_nat (strlen r)) 28); try lia;
    cbn [andb].
  - destruct (Z.ltb_spec (28 - Z.of_nat (strlen l)) 0); [lia|].
    replace (Z.to_nat (28 - Z.of_nat (strlen l)) - 1)%nat
      with (27 - strlen l)%nat by lia.
    replace (Z.to_nat (Z.abs (28 - Z.of_nat (strlen r))) - 1)%nat
      with (27 - strlen r)%nat by lia.
    now rewrite <- ?app_assoc.
  - destruct (Z.ltb_spec (28 - Z.of_nat (strlen l)) 0); [lia|].
    replace (Z.to_nat (28 - Z.of_nat (strlen l)) - 1)%nat
      with (27 - strlen l)%nat by lia.
    now rewrite <- ?app_assoc.
  - replace (Z.to_nat (Z.abs (28 - Z.of_nat (strlen r))) - 1)%nat
      with (27 - strlen r)%nat by lia.
    now rewrite <- ?app_assoc.
  - now rewrite <- ?app_assoc.
Qed.

Lemma left_window_cstr (text : list Z) (pos : Z) :
  0 <= pos <= Z.of_nat (strlen text) ->
  left_window text pos = left_window (cstr text) pos.
Proof.
  intros Hpos. unfold left_window.
  rewrite !take_drop_commute. f_equal.
  unfold cstr. rewrite take_take. f_equal. lia.
Qed.

(** The same for every text of [unsigned char] values, with the windows
    escaped character by character. *)
Lemma format_pos_bytes (text : list Z) (pos : Z) :
  0 <= pos <= Z.of_nat (strlen text) ->
  Forall byte_range (cstr text) ->
  format_pos [] text pos
  = Ret (Some (layout (flat_map escaped (left_window text pos))
                      (flat_map escaped (right_window text pos)) ++ [0])).
Proof.
  intros Hpos Hrange.
  pose proof (nonzero_cstr text) as Hnz.
  assert (Hl : nonzero (left_window text pos)
               /\ Forall byte_range (left_window text pos)).
  { rewrite left_window_cstr by assumption. unfold left_window.
    split; apply Forall_take, Forall_drop; assumption. }
  assert (Hr : nonzero (right_window text pos)
               /\ Forall byte_range (right_window text pos)).
  { unfold right_window. rewrite cstr_drop by lia.
    split; apply Forall_take, Forall_drop; assumption. }
  destruct Hl as [Hl1 Hl2], Hr as [Hr1 Hr2].
  rewrite (format_pos_layout text pos Hpos).
  rewrite (escaped_string_bytes _ Hl1 Hl2), (escaped_string_bytes _ Hr1 Hr2).
  reflexivity.
Qed.

(** C6: for a text of [unsigned char] values and an offset inside the
    string, [format_pos] escapes the [min (28, pos)] bytes before the offset
    and the bytes of the string after it, 28 at most, each on its own, and
    returns the escaped left window, "|=|" and the escaped right window
    between the markers "<" and ">", with spaces outside the marker of a
    window whose escaped form is shorter than 28 characters, and a newline
    at the end; so for "hello world" at 5, for a window with a tab, and for
    "caf\xc3\xa9" at 3 where [char] is unsigned.  Where [char] is signed,
    the right window of that text holds two characters of negative value,
    and [escape] writes outside its object: no string is returned. *)
Theorem format_pos_spec :
  (forall (text : list Z) (pos : Z),
     0 <= pos <= Z.of_nat (strlen text) ->
     Forall byte_range (cstr text) ->
     format_pos [] text pos
     = Ret (Some (layout (flat_map escaped (left_window text pos))
                         (flat_map escaped (right_window text pos)) ++ [0]))
     /\ take (Z.to_nat pos) text
        = take (Z.to_nat (pos - Z.min pos 28)) text ++ left_window text pos
     /\ length (left_window text pos) = Z.to_nat (Z.min pos 28)
     /\ right_window text pos = take 28 (drop (Z.to_nat pos) (cstr text)))
  /\ format_pos [] (str "hello world") 5
     = Ret (Some (replicate 22 32 ++ str "<hello|=| world>" ++ replicate 21 32
                  ++ [10; 0]))
  /\ format_pos [] [97; 9; 98] 1
     = Ret (Some (replicate 26 32 ++ str "<a|=|\tb>" ++ replicate 24 32
                  ++ [10; 0]))
  /\ format_pos [] [99; 97; 102; 195; 169] 3
     = Ret (Some (replicate 24 32 ++ str "<caf|=|\303\251>"
                  ++ replicate 19 32 ++ [10; 0]))
  /\ format_pos [] [99; 97; 102; -61; -87] 3 = Undef.
Proof.
  split; [|repeat split; vm_compute; reflexivity].
  intros text pos Hpos Hrange. split; [|split; [|split]].
  - now apply format_pos_bytes.
  - now apply format_pos_windows.
  - now apply format_pos_windows.
  - unfold right_window. rewrite cstr_drop by lia. reflexivity.
Qed.

Lemma format_pos_spec_witness :
  format_pos [] (str "hello world") 5
  = Ret (Some (layout
                 (flat_map escaped (left_window (str "hello world") 5))
                 (flat_map escaped (right_window (str "hello world") 5))
               ++ [0])).
Proof.
  refine (proj1 (proj1 format_pos_spec (str "hello world") 5 _ _)).
  - split; [lia | vm_compute; discriminate].
  - change (cstr (str "hello world"))
      with [104; 101; 108; 108; 111; 32; 119; 111; 114; 108; 100].
    repeat (apply Forall_cons_2; [unfold byte_range; lia|]).
    apply Forall_nil_2.
Defined.

(** * Further properties *)

(** Strings of concrete characters. *)
Ltac bytes :=
  repeat (apply Forall_cons_2; [unfold byte_range; lia|]); apply Forall_nil_2.

Ltac nonzeros :=
  unfold nonzero;
  repeat (apply Forall_cons_2; [discriminate|]); apply Forall_nil_2.

(** ** pathjoin on every heap *)

(** One round of the loop, whatever the heap and the accumulator. *)
Lemma pathjoin_round (h : heap) (path seg : option (list Z))
    (segs : list (option (list Z))) :
  pathjoin h path (seg :: segs)
  = if fst (alloc h) then pathjoin (after h) (appended path seg) segs
    else Ret (-1, None).
Proof.
  assert (Hseg : pathjoin h path (seg :: segs)
                 = pathjoin h path (Some (default (str "()") seg) :: segs))
    by (destruct seg; reflexivity).
  rewrite Hseg. unfold appended, after.
  generalize (default (str "()") seg). clear Hseg seg. intros seg.
  destruct path as [p|].
  - pose proof (pathjoin_append p seg []) as Hone.
    cbn [pathjoin alloc negb] in Hone. cbn [pathjoin].
    destruct h as [|[|] h]; cbn [alloc negb fst snd]; try reflexivity.
    + destruct (if (strlen p =? 0)%nat
                   || negb (char_at p (strlen p - 1) =? SEP)
                then strcat _ p (str "/") else Ret p) as [p1|];
        cbn [mbind result_bind] in *; [|discriminate].
      destruct (strcat _ p1 _) as [p2|]; cbn [mbind result_bind] in *;
        [|discriminate].
      injection Hone as ->. reflexivity.
    + destruct (if (strlen p =? 0)%nat
                   || negb (char_at p (strlen p - 1) =? SEP)
                then strcat _ p (str "/") else Ret p) as [p1|];
        cbn [mbind result_bind] in *; [|discriminate].
      destruct (strcat _ p1 _) as [p2|]; cbn [mbind result_bind] in *;
        [|discriminate].
      injection Hone as ->. reflexivity.
  - cbn [pathjoin]. unfold strcpy. rewrite Z.leb_refl.
    destruct h as [|[|] h]; reflexivity.
Qed.

Lemma grants_nil (n : nat) : grants [] n = true.
Proof. unfold grants. now rewrite take_nil. Qed.

Lemma grants_S (h : heap) (n : nat) :
  grants h (S n) = fst (alloc h) && grants (after h) n.
Proof. destruct h as [|ok h]; [now rewrite !grants_nil | reflexivity]. Qed.

Lemma pathjoin_closed (segs : list (option (list Z))) :
  forall (h : heap) (path : option (list Z)),
    pathjoin h path segs
    = if grants h (length segs) then Ret (0, foldl appended path segs)
      else Ret (-1, None).
Proof.
  induction segs as [|seg segs IH]; intros h path; [reflexivity|].
  rewrite pathjoin_round. cbn [length foldl]. rewrite grants_S.
  destruct (fst (alloc h)); [|reflexivity]. apply IH.
Qed.

(** X1: with every allocation granted, [pathjoin] returns 0 for every
    accumulator and every list of segments, NULL ones included, and the
    accumulator is the one it had with the segments appended one after the
    other; its [strcpy] and [strcat] stay inside the object allocated for
    them. *)
Theorem pathjoin_fold (path : option (list Z))
    (segs : list (option (list Z))) :
  pathjoin [] path segs = Ret (0, foldl appended path segs).
Proof. rewrite pathjoin_closed. now rewrite grants_nil. Qed.

(** X2: [pathjoin] fails as a whole: when one of the allocations for its
    segments fails it returns -1 and leaves NULL in the accumulator,
    whatever was joined before, and otherwise it returns what it returns
    when every allocation is granted. *)
Theorem pathjoin_all_or_nothing (h : heap) (path : option (list Z))
    (segs : list (option (list Z))) :
  pathjoin h path segs
  = if grants h (length segs) then pathjoin [] path segs
    else Ret (-1, None).
Proof.
  rewrite !pathjoin_closed, grants_nil.
  now destruct (grants h (length segs)).
Qed.

(** X3: joining the segments in two calls, the second one made when the
    first returned 0, is joining them in one call. *)
Theorem pathjoin_app (h : heap) (path : option (list Z))
    (a b : list (option (list Z))) :
  pathjoin h path (a ++ b)
  = (r ← pathjoin h path a;
     if fst r =? 0 then pathjoin (drop (length a) h) (snd r) b
     else Ret r).
Proof.
  revert h path. induction a as [|seg a IH]; intros h path.
  - cbn [app pathjoin length mbind result_bind fst snd Z.eqb].
    now rewrite drop_0.
  - cbn [app length]. rewrite !pathjoin_round.
    destruct h as [|[|] h]; cbn [alloc fst after snd].
    + rewrite IH. now rewrite !drop_nil.
    + rewrite IH. reflexivity.
    + reflexivity.
Qed.

Lemma joined_prefix (p s : list Z) :
  nonzero p -> nonzero s ->
  exists t, joined p s = p ++ t /\ nonzero (p ++ t).
Proof.
  intros Hp Hs. unfold joined.
  assert (Hd : nonzero (if char_at s 0 =? SEP then drop 1 s else s)).
  { destruct (char_at s 0 =? SEP); [now apply Forall_drop | assumption]. }
  destruct ((length p =? 0)%nat || negb (char_at p (length p - 1) =? SEP)).
  - eexists. rewrite <- app_assoc. split; [reflexivity|].
    apply nonzero_app; [assumption|]. apply nonzero_app; [|assumption].
    constructor; [discriminate | constructor].
  - eexists. split; [reflexivity|]. now apply nonzero_app.
Qed.

(** X4: [pathjoin] only appends: the string that the accumulator held
    before the call is a prefix of the one it holds after it. *)
Theorem pathjoin_extends (p : list Z) (segs : list (option (list Z))) :
  exists q t, pathjoin [] (Some p) segs = Ret (0, Some q)
              /\ cstr q = cstr p ++ t.
Proof.
  rewrite pathjoin_closed, grants_nil.
  assert (H : forall (segs : list (option (list Z))) (q : list Z),
            nonzero q ->
            exists t, foldl appended (Some q) segs = Some (q ++ t)
                      /\ nonzero (q ++ t)).
  { clear. induction segs as [|seg segs IH]; intros q Hq; cbn [foldl].
    - exists []. now rewrite app_nil_r.
    - unfold appended at 2. rewrite (cstr_nonzero q Hq).
      destruct (joined_prefix q (cstr (default (str "()") seg)) Hq
                  (nonzero_cstr _)) as (t & -> & Hnz).
      destruct (IH _ Hnz) as (t' & -> & Hnz'). exists (t ++ t').
      now rewrite app_assoc. }
  destruct segs as [|seg segs]; cbn [foldl].
  - exists p, []. now rewrite app_nil_r.
  - unfold appended at 2.
    destruct (joined_prefix (cstr p) (cstr (default (str "()") seg))
                (nonzero_cstr _) (nonzero_cstr _)) as (t & -> & Hnz).
    destruct (H segs _ Hnz) as (t' & -> & Hnz').
    exists ((cstr p ++ t) ++ t'), (t ++ t').
    split; [reflexivity|]. rewrite (cstr_nonzero _ Hnz').
    now rewrite app_assoc.
Qed.

(** ** fread_file_lim and read_file on every heap *)

Lemma strlen_terminated (a : list Z) :
  (strlen (a ++ [0%Z]) <= length a)%nat.
Proof.
  induction a as [|c a IH]; cbn [app strlen length]; [reflexivity|].
  destruct (c =? 0); lia.
Qed.

Section BoundedFileReaderHeaps.

Variable BUFSIZ : Z.
Hypothesis BUFSIZ_pos : 0 < BUFSIZ.

(** A [realloc] that fails makes the loop return NULL and changes nothing
    else. *)
Lemma fread_loop_any_heap (fuel : nat) :
  forall (h : heap) (f : stream) (max_len : Z) (buf : list Z)
         (alloc_sz size : Z),
    fread_loop BUFSIZ fuel h f max_len buf alloc_sz size = Some None
    \/ fread_loop BUFSIZ fuel h f max_len buf alloc_sz size
       = fread_loop BUFSIZ fuel [] f max_len buf alloc_sz size.
Proof.
  induction fuel as [|fuel IH]; intros h f max_len buf alloc_sz size;
    [now right|].
  cbn [fread_loop]. unfold grow.
  destruct (size + BUFSIZ + 1 >? alloc_sz).
  - destruct h as [|[|] h]; cbn [alloc]; [now right | | now left].
    destruct (fread f _) as [bytes f'].
    destruct (negb _ || _); [now right | apply IH].
  - destruct (fread f _) as [bytes f'].
    destruct (negb _ || _); [now right | apply IH].
Qed.

(** X5: whatever [realloc] does, [fread_file_lim] comes to an end, and
    what it returns is NULL or the buffer it returns when every [realloc]
    is granted: the bytes the stream delivers, [max_len] at most, and the
    terminator, with their number in [*length]. *)
Theorem fread_file_lim_any_heap (h : heap) (f : stream) (max_len : Z) :
  0 <= max_len ->
  fread_file_lim BUFSIZ h f max_len = Some None
  \/ fread_file_lim BUFSIZ h f max_len
     = Some (Some (take (Z.to_nat (obtained f max_len)) (rest f) ++ [0],
                   obtained f max_len))
     /\ 0 <= obtained f max_len <= max_len.
Proof.
  intros Hmax.
  pose proof (fread_file_lim_closed BUFSIZ BUFSIZ_pos f max_len Hmax) as Hc.
  unfold fread_file_lim in *.
  destruct (fread_loop_any_heap (S (length (rest f))) h f max_len [] 0 0)
    as [-> | ->]; [now left|].
  rewrite Hc. destruct (ferror f || hits f max_len); [now left|].
  right. split; [reflexivity|]. unfold obtained. lia.
Qed.

Lemma read_file_any_heap (h : heap) (fs : list Z -> option stream)
    (path : list Z) :
  read_file BUFSIZ h fs path = Some None
  \/ exists f, fs path = Some f
       /\ ferror f || hits f MAX_READ_LEN = false
       /\ read_file BUFSIZ h fs path
          = Some (Some (take (Z.to_nat (obtained f MAX_READ_LEN)) (rest f)
                        ++ [0])).
Proof.
  unfold read_file. destruct (fs path) as [f|]; [|now left].
  pose proof (fread_file_lim_closed BUFSIZ BUFSIZ_pos f MAX_READ_LEN
                ltac:(unfold MAX_READ_LEN; lia)) as Hc.
  unfold fread_file_lim in *.
  destruct (fread_loop_any_heap (S (length (rest f))) h f MAX_READ_LEN [] 0 0)
    as [-> | ->]; [now left|].
  rewrite Hc. destruct (ferror f || hits f MAX_READ_LEN) eqn:E; [now left|].
  right. exists f. split; [reflexivity|]. split; [exact E|].
  cbn [mbind option_bind].
  assert (Hlen : 0 <= obtained f MAX_READ_LEN <= MAX_READ_LEN).
  { unfold obtained, MAX_READ_LEN. lia. }
  destruct (Z.leb_spec (obtained f MAX_READ_LEN) MAX_READ_LEN); [|lia].
  rewrite to_int_small by (unfold MAX_READ_LEN in *; lia).
  now rewrite Z.eqb_refl.
Qed.

(** X6: whatever the file and the heap, [read_file] comes to an end, and
    what it returns is NULL or the first bytes of the file, MAX_READ_LEN
    at most, with the terminator after them: the string returned is never
    longer than 32 MiB. *)
Theorem read_file_bounded (h : heap) (fs : list Z -> option stream)
    (path : list Z) :
  read_file BUFSIZ h fs path = Some None
  \/ exists (f : stream) (n : nat),
       fs path = Some f
       /\ read_file BUFSIZ h fs path = Some (Some (take n (rest f) ++ [0]))
       /\ Z.of_nat n <= MAX_READ_LEN
       /\ Z.of_nat (strlen (take n (rest f) ++ [0])) <= MAX_READ_LEN.
Proof.
  destruct (read_file_any_heap h fs path) as [H | (f & Hf & _ & H)];
    [now left|].
  right. exists f, (Z.to_nat (obtained f MAX_READ_LEN)).
  assert (Hlen : 0 <= obtained f MAX_READ_LEN <= MAX_READ_LEN).
  { unfold obtained, MAX_READ_LEN. lia. }
  repeat split; [assumption | assumption | lia |].
  pose proof (strlen_terminated
                (take (Z.to_nat (obtained f MAX_READ_LEN)) (rest f))) as Hs.
  rewrite length_take in Hs. lia.
Qed.

(** X7: [read_file] returns NULL when the file cannot be opened, and when
    reading it fails before its end and before MAX_READ_LEN bytes,
    whatever the heap. *)
Theorem read_file_error (h : heap) (fs : list Z -> option stream)
    (path : list Z) :
  fs path = None
  \/ (exists f, fs path = Some f
                /\ ferror f || hits f MAX_READ_LEN = true) ->
  read_file BUFSIZ h fs path = Some None.
Proof.
  intros Hf.
  destruct (read_file_any_heap h fs path) as [H | (f & Hfs & Hok & _)];
    [assumption|].
  destruct Hf as [Hf | (f' & Hf & Herr)]; congruence.
Qed.

(** X8: with every [realloc] granted, [read_file] returns the whole
    content of a file of MAX_READ_LEN bytes or less that is read without
    an error, followed by the terminator. *)
Theorem read_file_whole (fs : list Z -> option stream) (path : list Z)
    (f : stream) :
  fs path = Some f -> ferror f = false -> faulty f = false ->
  Z.of_nat (length (rest f)) <= MAX_READ_LEN ->
  read_file BUFSIZ [] fs path = Some (Some (rest f ++ [0])).
Proof.
  intros Hfs Herr Hfault Hlen.
  destruct (read_file_any_heap [] fs path) as [H | (f' & Hfs' & Hok & H)].
  - exfalso. unfold read_file in H. rewrite Hfs in H.
    rewrite (fread_file_lim_closed BUFSIZ BUFSIZ_pos f MAX_READ_LEN) in H
      by (unfold MAX_READ_LEN; lia).
    unfold hits in H. rewrite Herr, Hfault in H.
    cbn [orb andb mbind option_bind] in H.
    assert (Hl : 0 <= obtained f MAX_READ_LEN <= MAX_READ_LEN).
    { unfold obtained, MAX_READ_LEN. lia. }
    destruct (Z.leb_spec (obtained f MAX_READ_LEN) MAX_READ_LEN); [|lia].
    rewrite to_int_small, Z.eqb_refl in H
      by (unfold MAX_READ_LEN in *; lia).
    discriminate.
  - rewrite H. rewrite Hfs in Hfs'. injection Hfs' as <-.
    assert (Hr : readable f = length (rest f)).
    { unfold readable, faulty in *. destruct (fault f) as [k|]; [|reflexivity].
      apply Nat.ltb_ge in Hfault. lia. }
    unfold obtained. rewrite Hr, Z.min_r, Nat2Z.id by lia.
    now rewrite firstn_all.
Qed.

End BoundedFileReaderHeaps.

Lemma fread_file_lim_any_heap_witness :
  fread_file_lim 8192 [true; false] (file (str "hello")) 3 = Some None
  \/ fread_file_lim 8192 [true; false] (file (str "hello")) 3
     = Some (Some (take (Z.to_nat (obtained (file (str "hello")) 3))
                     (rest (file (str "hello"))) ++ [0],
                   obtained (file (str "hello")) 3))
     /\ 0 <= obtained (file (str "hello")) 3 <= 3.
Proof.
  exact (fread_file_lim_any_heap 8192 ltac:(lia) [true; false]
           (file (str "hello")) 3 ltac:(lia)).
Defined.

Lemma read_file_bounded_witness :
  read_file 8192 [true] (fun _ => Some (file (str "hello"))) (str "f")
  = Some None
  \/ exists (f : stream) (n : nat),
       Some (file (str "hello")) = Some f
       /\ read_file 8192 [true] (fun _ => Some (file (str "hello"))) (str "f")
          = Some (Some (take n (rest f) ++ [0]))
       /\ Z.of_nat n <= MAX_READ_LEN
       /\ Z.of_nat (strlen (take n (rest f) ++ [0])) <= MAX_READ_LEN.
Proof.
  exact (read_file_bounded 8192 ltac:(lia) [true]
           (fun _ => Some (file (str "hello"))) (str "f")).
Defined.

Lemma read_file_error_witness :
  read_file 8192 []
    (fun _ => Some {| rest := str "hello"; fault := Some 2%nat;
                      ferror := false |}) (str "f")
  = Some None.
Proof.
  apply (read_file_error 8192 ltac:(lia)). right.
  eexists. split; reflexivity.
Defined.

Lemma read_file_whole_witness :
  read_file 8192 [] (fun _ => Some (file (str "hello"))) (str "f")
  = Some (Some (str "hello" ++ [0])).
Proof.
  apply (read_file_whole 8192 ltac:(lia)
           (fun _ => Some (file (str "hello"))) (str "f")
           (file (str "hello")));
    [reflexivity | reflexivity | reflexivity |].
  vm_compute. discriminate.
Defined.

(** ** escape on the values of an unsigned char *)

Lemma escaped_size_bounds (c : Z) : (1 <= escaped_size c <= 4)%nat.
Proof.
  unfold escaped_size.
  destruct (negb (c =? 0) && bool_decide (is_Some (strchr escape_chars c)));
    [lia|].
  destruct (negb (isprint c)); lia.
Qed.

Lemma escaped_sizes_bounds (w : list Z) :
  (length w <= sum_list (escaped_size <$> w) <= 4 * length w)%nat.
Proof.
  induction w as [|c w IH]; [cbn; lia|].
  rewrite fmap_cons. cbn [sum_list sum_list_with id length].
  pose proof (escaped_size_bounds c). lia.
Qed.

Lemma window_nonzero (text : list Z) (cnt : Z) :
  nonzero (take (clamp text cnt) text).
Proof.
  pose proof (clamp_le text cnt) as Hle.
  replace (take (clamp text cnt) text)
    with (take (clamp text cnt) (cstr text)).
  - apply Forall_take, nonzero_cstr.
  - unfold cstr. rewrite take_take. f_equal. lia.
Qed.

(** X9: for a text of [unsigned char] values and a granted allocation,
    the two loops of [escape] agree: the string returned has the length
    the first loop counted, between one and four characters for each of the
    [cnt] characters escaped, and the object is that string and its
    terminator. *)
Theorem escape_two_passes (h : heap) (text : list Z) (cnt : Z) :
  fst (alloc h) = true ->
  Forall byte_range (take (clamp text cnt) text) ->
  exists e,
    escape h text cnt = Ret (Some e)
    /\ strlen e = escape_len (take (clamp text cnt) text) 0
    /\ length e = S (strlen e)
    /\ (clamp text cnt <= strlen e <= 4 * clamp text cnt)%nat.
Proof.
  intros Hh Hw. pose proof (clamp_le text cnt) as Hle.
  pose proof (strlen_le_length text) as Hlen.
  pose proof (window_nonzero text cnt) as Hnz.
  set (w := take (clamp text cnt) text) in *.
  exists (flat_map escaped w ++ [0]).
  assert (Hs : strlen (flat_map escaped w ++ [0]) = escape_len w 0).
  { rewrite (strlen_app_nul _ []) by (now apply flat_escaped_nonzero).
    rewrite escape_len_sum. now rewrite escaped_flat_length. }
  split; [now apply escape_spec|]. split; [exact Hs|].
  split.
  - rewrite Hs, length_app, escape_len_sum, escaped_flat_length by assumption.
    cbn [length]. lia.
  - rewrite Hs, escape_len_sum. pose proof (escaped_sizes_bounds w) as Hb.
    assert (length w = clamp text cnt) by (unfold w; rewrite length_take; lia).
    lia.
Qed.

Lemma escape_two_passes_witness :
  exists e,
    escape [] [97; 9; 200; 98] 3 = Ret (Some e)
    /\ strlen e = escape_len (take (clamp [97; 9; 200; 98] 3)
                                [97; 9; 200; 98]) 0
    /\ length e = S (strlen e)
    /\ (3 <= strlen e <= 12)%nat.
Proof.
  apply (escape_two_passes [] [97; 9; 200; 98] 3); [reflexivity|].
  change (take (clamp [97; 9; 200; 98] 3) [97; 9; 200; 98])
    with [97; 9; 200].
  bytes.
Defined.

Lemma escaped_isprint (c : Z) :
  byte_range c -> Forall (fun x => isprint x = true) (escaped c).
Proof.
  intros Hc.
  assert (Hall : forallb (fun n => forallb isprint (escaped (Z.of_nat n)))
                   (seq 0 256) = true) by (vm_compute; reflexivity).
  rewrite forallb_forall in Hall.
  specialize (Hall (Z.to_nat c)).
  unfold byte_range in Hc. rewrite Z2Nat.id in Hall by lia.
  specialize (Hall ltac:(apply in_seq; lia)).
  rewrite forallb_forall in Hall.
  apply Forall_forall. intros x Hx. apply Hall. now apply list_elem_of_In.
Qed.

(** X10: for a text of [unsigned char] values, every character of the
    string that [escape] returns is a printable one. *)
Theorem escape_printable (h : heap) (text : list Z) (cnt : Z) :
  fst (alloc h) = true ->
  Forall byte_range (take (clamp text cnt) text) ->
  exists e, escape h text cnt = Ret (Some e)
            /\ Forall (fun c => isprint c = true) (cstr e).
Proof.
  intros Hh Hw. pose proof (window_nonzero text cnt) as Hnz.
  exists (flat_map escaped (take (clamp text cnt) text) ++ [0]).
  split; [now apply escape_spec|].
  unfold cstr. rewrite (strlen_app_nul _ [])
    by (now apply flat_escaped_nonzero).
  rewrite take_app_length.
  induction Hw as [|c w Hc _ IH]; cbn [flat_map]; [constructor|].
  apply Forall_app. split; [now apply escaped_isprint|].
  apply IH. now inversion Hnz.
Qed.

Lemma escape_printable_witness :
  exists e, escape [] [97; 9; 200; 98] 3 = Ret (Some e)
            /\ Forall (fun c => isprint c = true) (cstr e).
Proof.
  apply (escape_printable [] [97; 9; 200; 98] 3); [reflexivity|].
  change (take (clamp [97; 9; 200; 98] 3) [97; 9; 200; 98])
    with [97; 9; 200].
  bytes.
Defined.

(** X11: [escape] works character by character: the escape of two
    strings of [unsigned char] values one after the other is the escape of
    the first followed by the escape of the second. *)
Theorem escape_app (a b : list Z) :
  nonzero a -> Forall byte_range a -> nonzero b -> Forall byte_range b ->
  exists ea eb,
    escape [] a (-1) = Ret (Some (ea ++ [0]))
    /\ escape [] b (-1) = Ret (Some (eb ++ [0]))
    /\ escape [] (a ++ b) (-1) = Ret (Some ((ea ++ eb) ++ [0])).
Proof.
  intros Ha Hra Hb Hrb.
  exists (flat_map escaped a), (flat_map escaped b).
  rewrite (escape_bytes a Ha Hra), (escape_bytes b Hb Hrb).
  rewrite (escape_bytes (a ++ b));
    [| now apply nonzero_app | now apply Forall_app].
  now rewrite flat_map_app.
Qed.

Lemma escape_app_witness :
  exists ea eb,
    escape [] [97; 9] (-1) = Ret (Some (ea ++ [0]))
    /\ escape [] [200] (-1) = Ret (Some (eb ++ [0]))
    /\ escape [] ([97; 9] ++ [200]) (-1) = Ret (Some ((ea ++ eb) ++ [0])).
Proof.
  apply (escape_app [97; 9] [200]); [nonzeros | bytes | nonzeros | bytes].
Defined.

(** The escape at the head of a string is read back as the character it
    was made from. *)
Lemma token_escaped (c : Z) (r : list Z) :
  1 <= c <= 255 -> token (escaped c ++ r) = Some (c, r).
Proof.
  intros Hc.
  assert (Hall : forallb (fun n =>
      let c := Z.of_nat n in
      match escaped c with
      | [x] => negb (x =? 92) && (x =? c)
      | [x; d] =>
          (x =? 92)
          && match strchr escape_names d with
             | Some n => char_at escape_chars n =? c
             | None => false
             end
      | [x; d; d1; d0] =>
          (x =? 92)
          && match strchr escape_names d with
             | Some _ => false
             | None => (d - 48) * 64 + (d1 - 48) * 8 + (d0 - 48) =? c
             end
      | _ => false
      end) (seq 1 255) = true) by (vm_compute; reflexivity).
  rewrite forallb_forall in Hall.
  specialize (Hall (Z.to_nat c)). cbv zeta in Hall.
  rewrite Z2Nat.id in Hall by lia.
  specialize (Hall ltac:(apply in_seq; lia)).
  destruct (escaped c) as [|x [|d [|d1 [|d0 [|? ?]]]]]; try discriminate;
    cbn [app token].
  - apply andb_prop in Hall. destruct Hall as [H1 H2].
    apply negb_true_iff in H1. rewrite H1.
    apply Z.eqb_eq in H2. now subst.
  - apply andb_prop in Hall. destruct Hall as [H1 H2]. rewrite H1.
    destruct (strchr escape_names d); [|discriminate].
    apply Z.eqb_eq in H2. now subst.
  - apply andb_prop in Hall. destruct Hall as [H1 H2]. rewrite H1.
    destruct (strchr escape_names d); [discriminate|].
    apply Z.eqb_eq in H2. now subst.
Qed.

Lemma flat_escaped_inj (a : list Z) :
  forall b : list Z,
    Forall (fun c => 1 <= c <= 255) a -> Forall (fun c => 1 <= c <= 255) b ->
    flat_map escaped a = flat_map escaped b -> a = b.
Proof.
  induction a as [|c a IH]; intros [|d b] Ha Hb Heq; cbn [flat_map] in Heq.
  - reflexivity.
  - apply (f_equal token) in Heq. inversion Hb; subst.
    rewrite token_escaped in Heq by assumption. discriminate.
  - apply (f_equal token) in Heq. inversion Ha; subst.
    rewrite token_escaped in Heq by assumption. discriminate.
  - apply (f_equal token) in Heq. inversion Ha; inversion Hb; subst.
    rewrite !token_escaped in Heq by assumption.
    injection Heq as -> Hr. f_equal. now apply IH.
Qed.

(** X12: [escape] loses nothing: two strings of [unsigned char] values
    that it returns the same string for are the same string. *)
Theorem escape_injective (a b : list Z) :
  nonzero a -> Forall byte_range a -> nonzero b -> Forall byte_range b ->
  escape [] a (-1) = escape [] b (-1) -> a = b.
Proof.
  intros Ha Hra Hb Hrb.
  rewrite !escape_bytes by assumption. intros [= Heq].
  apply app_inv_tail in Heq.
  apply flat_escaped_inj; [| |assumption].
  - apply Forall_forall. intros c Hc.
    pose proof (proj1 (Forall_forall _ _) Ha c Hc).
    pose proof (proj1 (Forall_forall _ _) Hra c Hc). unfold byte_range in *.
    lia.
  - apply Forall_forall. intros c Hc.
    pose proof (proj1 (Forall_forall _ _) Hb c Hc).
    pose proof (proj1 (Forall_forall _ _) Hrb c Hc). unfold byte_range in *.
    lia.
Qed.

Lemma escape_injective_witness : [97; 9; 200] = [97; 9; 200].
Proof.
  apply (escape_injective [97; 9; 200] [97; 9; 200]);
    [nonzeros | bytes | nonzeros | bytes | reflexivity].
Defined.

(** X13: [escape (text, cnt)] is the escape of the first [cnt] characters
    of the text: what follows them is not looked at. *)
Theorem escape_count (h : heap) (w t : list Z) :
  nonzero w ->
  escape h (w ++ t) (Z.of_nat (length w)) = escape h w (-1).
Proof.
  intros Hw. rewrite escape_window.
  assert (Hle : (length w <= strlen (w ++ t))%nat).
  { clear h. induction Hw as [|c w Hc _ IH]; cbn; [lia|].
    destruct (Z.eqb_spec c 0); [contradiction | lia]. }
  rewrite clamp_within by lia. rewrite Nat2Z.id.
  now rewrite take_app_length.
Qed.

Lemma escape_count_witness :
  escape [] ([97; 9] ++ [200; 98]) (Z.of_nat (length [97; 9]))
  = escape [] [97; 9] (-1).
Proof. apply (escape_count [] [97; 9] [200; 98]). nonzeros. Defined.

Lemma escape_fill_app (w v : list Z) :
  Forall byte_range w ->
  forall (pre : list Z) (k : nat),
    (sum_list (escaped_size <$> w) <= k)%nat ->
    escape_fill (w ++ v) (pre ++ replicate (S k) 0) (length pre)
    = escape_fill v
        ((pre ++ flat_map escaped w)
         ++ replicate (S (k - sum_list (escaped_size <$> w))) 0)
        (length (pre ++ flat_map escaped w)).
Proof.
  induction 1 as [|c w Hc Hw IH]; intros pre k Hk.
  - cbn [app flat_map fmap list_fmap sum_list sum_list_with].
    now rewrite app_nil_r, Nat.sub_0_r.
  - rewrite fmap_cons in *. cbn [sum_list sum_list_with id] in *.
    cbn [app]. rewrite escape_fill_step by (assumption || lia).
    rewrite IH by lia. cbn [flat_map].
    rewrite <- !app_assoc. do 3 f_equal. f_equal. f_equal. lia.
Qed.

Lemma escaped_size_negative (c : Z) : c < 0 -> escaped_size c = 4%nat.
Proof.
  intros Hc. unfold escaped_size.
  assert (Hnone : strchr escape_chars c = None).
  { unfold escape_chars. cbn [strchr].
    repeat match goal with
    | |- context [?x =? c] => destruct (Z.eqb_spec x c); [lia|]
    end.
    cbn. destruct (Z.eqb_spec c 0); [lia | reflexivity]. }
  rewrite Hnone.
  rewrite bool_decide_eq_false_2 by (intros [? ?]; discriminate).
  rewrite andb_false_r. unfold isprint.
  destruct (Z.leb_spec 32 c); [lia | reflexivity].
Qed.

Lemma escaped_sizes_snoc (w : list Z) (c : Z) :
  sum_list (escaped_size <$> w ++ [c])
  = (sum_list (escaped_size <$> w) + escaped_size c)%nat.
Proof.
  induction w as [|d w IH]; cbn [app]; rewrite ?fmap_cons;
    cbn [fmap list_fmap sum_list sum_list_with id]; [lia|].
  rewrite IH. lia.
Qed.

(** X14: where [char] is signed, [escape] of a string that ends in a
    byte above 0x7f writes outside the object it allocated, whatever the
    characters before that byte. *)
Theorem escape_negative_end (w : list Z) (c : Z) :
  nonzero w -> Forall byte_range w -> -128 <= c < 0 ->
  escape [] (w ++ [c]) (-1) = Undef.
Proof.
  intros Hnz Hw Hc.
  assert (Hnz' : nonzero (w ++ [c])).
  { apply nonzero_app; [assumption|]. constructor; [lia | constructor]. }
  unfold escape, CALLOC. cbn [alloc fst].
  rewrite clamp_whole, (strlen_nonzero _ Hnz'), firstn_all.
  rewrite escape_len_sum, escaped_sizes_snoc. cbn [Nat.add].
  rewrite (escaped_size_negative c) by lia.
  set (n := sum_list (escaped_size <$> w)).
  replace (n + 4 + 1)%nat with (S (n + 4)) by lia.
  pose proof (escape_fill_app w [c] Hw [] (n + 4) ltac:(fold n; lia)) as Hfill.
  cbn [app length] in Hfill. rewrite Hfill. fold n.
  replace (S (n + 4 - n)) with 5%nat by lia.
  pose proof (escape_fill_negative_last c (flat_map escaped w) Hc) as Hneg.
  rewrite Hneg. reflexivity.
Qed.

Lemma escape_negative_end_witness :
  escape [] ([97; 98] ++ [-128]) (-1) = Undef.
Proof.
  apply (escape_negative_end [97; 98] (-128)); [nonzeros | bytes | lia].
Defined.

(** ** unescape on every string *)

Lemma unescaped_length (n : nat) :
  forall (w : list Z) (next : Z),
    (length w <= n)%nat -> (length (unescaped w next) <= length w)%nat.
Proof.
  induction n as [|n IH]; intros [|c w] next Hn; cbn [length] in *;
    try lia; try (cbn; lia).
  cbn [unescaped].
  destruct (if c =? 92 then strchr escape_names (lookahead w next) else None);
    cbn [length].
  - destruct w as [|d w]; cbn [length] in *; [lia|].
    specialize (IH w next ltac:(lia)). lia.
  - specialize (IH w next ltac:(lia)). lia.
Qed.

Lemma unescape_size_unescaped (n : nat) :
  forall (w : list Z) (next : Z) (size : nat),
    (length w <= n)%nat ->
    unescape_size w next size = (size + length (unescaped w next))%nat.
Proof.
  induction n as [|n IH]; intros [|c w] next size Hn; cbn [length] in *;
    try lia; try (cbn; lia).
  cbn [unescape_size unescaped].
  destruct (c =? 92); cbn [andb];
    [destruct (strchr escape_names (lookahead w next)) as [k|];
       [rewrite bool_decide_eq_true_2 by eauto
       |rewrite bool_decide_eq_false_2 by (intros [? ?]; discriminate)]|];
    cbn [length].
  - destruct w as [|d w]; cbn [length] in *; [lia|].
    rewrite IH by lia. lia.
  - rewrite IH by lia. lia.
  - rewrite IH by lia. lia.
Qed.

(** The second loop on an object whose bytes from [t] on are zero and
    one more than the characters to write: it stays inside the object. *)
Lemma unescape_fill_unescaped (n : nat) :
  forall (w : list Z) (next : Z) (pre : list Z) (k : nat),
    (length w <= n)%nat ->
    (length (unescaped w next) <= k)%nat ->
    unescape_fill w next (pre ++ replicate (S k) 0) (length pre)
    = Ret ((pre ++ unescaped w next)
           ++ replicate (S k - length (unescaped w next)) 0).
Proof.
  induction n as [|n IH]; intros [|c w] next pre k Hn Hk;
    cbn [length] in *; try lia;
    try (cbn [unescape_fill unescaped length]; now rewrite app_nil_r).
  revert Hk. cbn [unescape_fill unescaped].
  destruct (if c =? 92 then strchr escape_names (lookahead w next) else None)
    as [x|]; cbn [length]; intros Hk;
    rewrite write_fresh by (cbn [length]; lia);
    cbn [mbind result_bind length].
  - destruct w as [|d w]; cbn [length] in *; [reflexivity|].
    destruct k as [|k]; [lia|].
    replace (S (S k) - 1)%nat with (S k) by lia.
    replace (length pre + 1)%nat
      with (length (pre ++ [char_at escape_chars x]))
      by (rewrite length_app; reflexivity).
    rewrite IH by lia. rewrite <- !app_assoc. reflexivity.
  - destruct k as [|k]; [lia|].
    replace (S (S k) - 1)%nat with (S k) by lia.
    replace (length pre + 1)%nat with (length (pre ++ [c]))
      by (rewrite length_app; reflexivity).
    rewrite IH by lia. rewrite <- !app_assoc. reflexivity.
Qed.

Lemma unescape_closed (s : list Z) (len : Z) :
  unescape [] s len
  = Ret (Some (unescaped (take (clamp s len) s) (char_at s (clamp s len))
               ++ [0])).
Proof.
  unfold unescape, CALLOC. cbn [alloc fst].
  set (w := take (clamp s len) s). set (next := char_at s (clamp s len)).
  rewrite (unescape_size_unescaped (length w)) by lia. cbn [Nat.add].
  replace (length (unescaped w next) + 1)%nat
    with (S (length (unescaped w next))) by lia.
  pose proof (unescape_fill_unescaped (length w) w next []
                (length (unescaped w next)) ltac:(lia) ltac:(lia)) as Hfill.
  cbn [app length] in Hfill. rewrite Hfill. cbn [mbind result_bind].
  now replace (S (length (unescaped w next)) - length (unescaped w next))%nat
    with 1%nat by lia.
Qed.

(** X15: with its allocation granted, [unescape] returns an object for
    every string and every [len]: the two loops agree, so every write
    stays inside the object, which holds one character for every character
    copied and for every pair decoded, and the terminator; the string is
    never longer than the input. *)
Theorem unescape_total (s : list Z) (len : Z) :
  exists u,
    unescape [] s len = Ret (Some (u ++ [0]))
    /\ u = unescaped (take (clamp s len) s) (char_at s (clamp s len))
    /\ length u = unescape_size (take (clamp s len) s)
                    (char_at s (clamp s len)) 0
    /\ (length u <= clamp s len <= strlen s)%nat.
Proof.
  eexists. split; [apply unescape_closed|]. split; [reflexivity|].
  pose proof (clamp_le s len) as Hle.
  pose proof (strlen_le_length s) as Hlen.
  split.
  - now rewrite (unescape_size_unescaped _ _ _ _ (Nat.le_refl _)).
  - pose proof (unescaped_length _ (take (clamp s len) s)
                  (char_at s (clamp s len)) (Nat.le_refl _)) as Hu.
    rewrite length_take in Hu. lia.
Qed.

Lemma unescaped_verbatim (c : Z) (w : list Z) (next : Z) :
  c <> 92 \/ strchr escape_names (lookahead w next) = None ->
  unescaped (c :: w) next = c :: unescaped w next.
Proof.
  intros Hc. cbn [unescaped].
  destruct Hc as [Hc | ->]; [|now destruct (c =? 92)].
  now destruct (Z.eqb_spec c 92).
Qed.

Lemma unescaped_pair (d : Z) (n : nat) (w : list Z) (next : Z) :
  strchr escape_names d = Some n ->
  unescaped (92 :: d :: w) next = char_at escape_chars n :: unescaped w next.
Proof. intros Hd. cbn [unescaped lookahead]. now rewrite Z.eqb_refl, Hd. Qed.

Lemma unescaped_plain_app (s w : list Z) (next : Z) :
  Forall (fun c => c <> 92) s ->
  unescaped (s ++ w) next = s ++ unescaped w next.
Proof.
  induction 1 as [|c s Hc _ IH]; cbn [app]; [reflexivity|].
  rewrite unescaped_verbatim by now left. now rewrite IH.
Qed.

(** What [unescape] makes of the escape of one character. *)
Lemma unescaped_escaped (c : Z) (w : list Z) (next : Z) :
  1 <= c <= 255 ->
  unescaped (escaped c ++ w) next = octal_kept c ++ unescaped w next.
Proof.
  intros Hc.
  assert (Hall : forallb (fun n =>
      let c := Z.of_nat n in
      match escaped c with
      | [x] => negb (x =? 92) && bool_decide (octal_kept c = [x])
      | [x; d] =>
          (x =? 92)
          && match strchr escape_names d with
             | Some n => bool_decide (octal_kept c = [char_at escape_chars n])
             | None => false
             end
      | [x; d; d1; d0] =>
          (x =? 92) && negb (d =? 92) && negb (d1 =? 92) && negb (d0 =? 92)
          && match strchr escape_names d with
             | Some _ => false
             | None => bool_decide (octal_kept c = [x; d; d1; d0])
             end
      | _ => false
      end) (seq 1 255) = true) by (vm_compute; reflexivity).
  rewrite forallb_forall in Hall.
  specialize (Hall (Z.to_nat c)). cbv zeta in Hall.
  rewrite Z2Nat.id in Hall by lia.
  specialize (Hall ltac:(apply in_seq; lia)).
  destruct (escaped c) as [|x [|d [|d1 [|d0 [|? ?]]]]]; try discriminate;
    cbn [app].
  - apply andb_prop in Hall. destruct Hall as [H1 H2].
    apply negb_true_iff, Z.eqb_neq in H1. apply bool_decide_eq_true in H2.
    rewrite H2. cbn [app]. apply unescaped_verbatim. now left.
  - apply andb_prop in Hall. destruct Hall as [H1 H2].
    apply Z.eqb_eq in H1. subst x.
    destruct (strchr escape_names d) as [n|] eqn:En; [|discriminate].
    apply bool_decide_eq_true in H2. rewrite H2. cbn [app].
    now apply unescaped_pair.
  - repeat (apply andb_prop in Hall; destruct Hall as [Hall ?]).
    apply Z.eqb_eq in Hall. subst x.
    destruct (strchr escape_names d) as [n|] eqn:En; [discriminate|].
    repeat match goal with
    | H : negb _ = true |- _ => apply negb_true_iff, Z.eqb_neq in H
    end.
    match goal with
    | H : bool_decide _ = true |- _ => apply bool_decide_eq_true in H;
                                       rewrite H
    end.
    cbn [app].
    rewrite unescaped_verbatim by (right; exact En).
    rewrite !unescaped_verbatim by (now left). reflexivity.
Qed.

Lemma unescaped_flat_escaped (s : list Z) (next : Z) :
  Forall (fun c => 1 <= c <= 255) s ->
  unescaped (flat_map escaped s) next = flat_map octal_kept s.
Proof.
  induction 1 as [|c s Hc _ IH]; cbn [flat_map]; [reflexivity|].
  rewrite unescaped_escaped by assumption. now rewrite IH.
Qed.

Lemma octal_kept_literal (c : Z) : literal c -> octal_kept c = [c].
Proof.
  intros Hc. unfold octal_kept.
  destruct (strchr escape_chars c) as [p|] eqn:Ep; [reflexivity|].
  pose proof (strchr_escape_chars_None c Ep) as Hnot.
  destruct Hc as [Hc|Hc]; [contradiction|].
  unfold isprint, printable in *.
  destruct (Z.leb_spec 32 c); [|lia]. destruct (Z.leb_spec c 126); [|lia].
  reflexivity.
Qed.

Lemma octal_kept_other (c : Z) :
  c <> 0 -> ~ literal c -> octal_kept c = sprintf_03o c.
Proof.
  intros Hnz Hc. unfold octal_kept.
  destruct (strchr escape_chars c) as [p|] eqn:Ep.
  - exfalso. apply Hc. left.
    destruct (strchr_escape_chars c p Hnz Ep) as (_ & Hp & _ & Hlt).
    unfold control_escape. rewrite <- Hp. unfold char_at, escape_chars.
    do 9 (destruct p as [|p]; [cbn; tauto|]). lia.
  - unfold isprint. destruct (Z.leb_spec 32 c); cbn [andb]; [|reflexivity].
    destruct (Z.leb_spec c 126); [|reflexivity].
    exfalso. apply Hc. right. unfold printable. lia.
Qed.

(** X16: [unescape] does not decode the octal escapes of [escape]: on a
    string of [unsigned char] values, [escape] and then [unescape] give
    back the characters of the control-escape set and the printable ones,
    and leave the octal escape of every other character as the four
    characters it is. *)
Theorem unescape_keeps_octal (s : list Z) :
  nonzero s -> Forall byte_range s ->
  (exists e, escape [] s (-1) = Ret (Some e)
             /\ unescape [] e (-1)
                = Ret (Some (flat_map octal_kept s ++ [0])))
  /\ Forall (fun c => (literal c -> octal_kept c = [c])
                      /\ (~ literal c -> octal_kept c = sprintf_03o c
                                         /\ length (sprintf_03o c) = 4%nat))
       s.
Proof.
  intros Hnz Hr.
  assert (Hs : Forall (fun c => 1 <= c <= 255) s).
  { apply Forall_forall. intros c Hc.
    pose proof (proj1 (Forall_forall _ _) Hnz c Hc).
    pose proof (proj1 (Forall_forall _ _) Hr c Hc). unfold byte_range in *.
    lia. }
  split.
  - exists (flat_map escaped s ++ [0]).
    split; [now apply escape_bytes|].
    rewrite unescape_closed, clamp_whole.
    rewrite (strlen_app_nul _ []) by (now apply flat_escaped_nonzero).
    rewrite take_app_length.
    now rewrite (unescaped_flat_escaped s _ Hs).
  - eapply Forall_impl; [exact Hs|]. intros c Hc. cbn beta in *.
    split; [apply octal_kept_literal|].
    intros Hl. split; [apply octal_kept_other; [lia | assumption]|].
    apply sprintf_03o_length. lia.
Qed.

Lemma unescape_keeps_octal_witness :
  (exists e, escape [] [97; 9; 200; 1] (-1) = Ret (Some e)
             /\ unescape [] e (-1)
                = Ret (Some (flat_map octal_kept [97; 9; 200; 1] ++ [0])))
  /\ Forall (fun c => (literal c -> octal_kept c = [c])
                      /\ (~ literal c -> octal_kept c = sprintf_03o c
                                         /\ length (sprintf_03o c) = 4%nat))
       [97; 9; 200; 1].
Proof.
  apply (unescape_keeps_octal [97; 9; 200; 1]); [nonzeros | bytes].
Defined.

(** X17: the count of [unescape] is a count of characters read, but a
    backslash that is the last of them is decoded with the character after
    it, which is beyond the count. *)
Theorem unescape_reads_past_len (s r : list Z) (d : Z) (n : nat) :
  nonzero s -> Forall (fun c => c <> 92) s ->
  d <> 0 -> strchr escape_names d = Some n ->
  unescape [] (s ++ 92 :: d :: r) (Z.of_nat (length s) + 1)
  = Ret (Some (s ++ [char_at escape_chars n; 0])).
Proof.
  intros Hnz Hs Hd Hn.
  assert (Hlen : (length s + 2 <= strlen (s ++ 92%Z :: d :: r))%nat).
  { clear Hs. induction Hnz as [|c s Hc _ IH]; cbn [app strlen length].
    - change (92 =? 0) with false. cbv iota.
      destruct (Z.eqb_spec d 0); [contradiction | lia].
    - destruct (Z.eqb_spec c 0); [contradiction | lia]. }
  rewrite unescape_closed.
  rewrite clamp_within by lia.
  replace (Z.to_nat (Z.of_nat (length s) + 1)) with (length s + 1)%nat by lia.
  replace (s ++ 92 :: d :: r) with ((s ++ [92]) ++ d :: r)
    by (now rewrite <- app_assoc).
  replace (length s + 1)%nat with (length (s ++ [92]))
    by (rewrite length_app; reflexivity).
  rewrite take_app_length.
  unfold char_at. rewrite nth_middle.
  rewrite unescaped_plain_app by assumption.
  cbn [unescaped lookahead]. rewrite Z.eqb_refl, Hn.
  now rewrite <- app_assoc.
Qed.

Lemma unescape_reads_past_len_witness :
  unescape [] ([97] ++ 92 :: 110 :: [98]) (Z.of_nat (length [97]) + 1)
  = Ret (Some ([97] ++ [char_at escape_chars 4; 0])).
Proof.
  apply (unescape_reads_past_len [97] [98] 110 4);
    [nonzeros | | discriminate | reflexivity].
  apply Forall_cons_2; [discriminate | apply Forall_nil_2].
Defined.

(** ** format_pos on every heap, print_chars and print_pos *)

Lemma escape_heap (h h' : heap) (text : list Z) (cnt : Z) :
  fst (alloc h) = fst (alloc h') -> escape h text cnt = escape h' text cnt.
Proof. intros H. unfold escape, CALLOC. now rewrite H. Qed.

(** The heap matters to [format_pos] through the outcome of [asprintf]
    only, once the two calls of [escape] are granted their objects. *)
Lemma format_pos_heap (h : heap) (text : list Z) (pos : Z) :
  fst (alloc h) = true -> fst (alloc (after h)) = true ->
  format_pos h text pos
  = (r ← format_pos [] text pos;
     Ret (if fst (alloc (after (after h))) then r else None)).
Proof.
  intros H1 H2. unfold format_pos. cbv zeta.
  destruct (offset text (pos - (if pos >? 28 then 28 else pos))) as [lp|];
    cbn [mbind result_bind]; [|reflexivity].
  rewrite (escape_heap h [] lp) by assumption.
  destruct (escape [] lp _) as [[l|]|]; cbn [mbind result_bind];
    [|now destruct (fst (alloc (after (after h))))|reflexivity].
  destruct (offset text pos) as [rp|]; cbn [mbind result_bind];
    [|reflexivity].
  rewrite (escape_heap (after h) (after []) rp) by assumption.
  destruct (escape (after []) rp _) as [[r|]|]; cbn [mbind result_bind];
    [|now destruct (fst (alloc (after (after h))))|reflexivity].
  now destruct (fst (alloc (after (after h)))).
Qed.

Lemma layout_nonzero (l r : list Z) :
  nonzero l -> nonzero r -> nonzero (layout l r).
Proof.
  intros Hl Hr. unfold layout.
  repeat apply nonzero_app; try assumption;
    try (destruct (_ <? _)%nat; [apply Forall_replicate; discriminate
                                |constructor]);
    repeat (constructor; [discriminate|]); constructor.
Qed.

Lemma windows_bytes (text : list Z) (pos : Z) :
  0 <= pos <= Z.of_nat (strlen text) ->
  Forall byte_range (cstr text) ->
  (nonzero (left_window text pos)
   /\ Forall byte_range (left_window text pos))
  /\ (nonzero (right_window text pos)
      /\ Forall byte_range (right_window text pos)).
Proof.
  intros Hpos Hrange. pose proof (nonzero_cstr text) as Hnz. split.
  - rewrite left_window_cstr by assumption. unfold left_window.
    split; apply Forall_take, Forall_drop; assumption.
  - unfold right_window. rewrite cstr_drop by lia.
    split; apply Forall_take, Forall_drop; assumption.
Qed.

(** X18: when the escaped windows are shorter than 28 characters,
    [format_pos] pads them to columns of 28: the line is 60 characters
    long with its newline, "|=|" stands in columns 29 to 31, the left
    window ends where it begins, and the right window begins where it
    ends. *)
Theorem format_pos_columns (text : list Z) (pos : Z) :
  0 <= pos <= Z.of_nat (strlen text) ->
  Forall byte_range (cstr text) ->
  (length (flat_map escaped (left_window text pos)) < 28)%nat ->
  (length (flat_map escaped (right_window text pos)) < 28)%nat ->
  exists a b line,
    format_pos [] text pos = Ret (Some (line ++ [0]))
    /\ line = a ++ str "|=|" ++ b ++ [10]
    /\ a = replicate (27 - length (flat_map escaped (left_window text pos)))
             32
           ++ str "<" ++ flat_map escaped (left_window text pos)
    /\ b = flat_map escaped (right_window text pos) ++ str ">"
           ++ replicate
                (27 - length (flat_map escaped (right_window text pos))) 32
    /\ length a = 28%nat /\ length b = 28%nat /\ length line = 60%nat.
Proof.
  intros Hpos Hrange Hl Hr.
  rewrite (format_pos_bytes text pos Hpos Hrange).
  set (l := flat_map escaped (left_window text pos)) in *.
  set (r := flat_map escaped (right_window text pos)) in *.
  eexists _, _, _. split; [reflexivity|].
  split; [|split; [reflexivity | split; [reflexivity|]]].
  - unfold layout.
    destruct (Nat.ltb_spec (length l) 28); [|lia].
    destruct (Nat.ltb_spec (length r) 28); [|lia].
    now rewrite <- !app_assoc.
  - unfold layout.
    destruct (Nat.ltb_spec (length l) 28); [|lia].
    destruct (Nat.ltb_spec (length r) 28); [|lia].
    rewrite !length_app, !length_replicate.
    change (length (str "<")) with 1%nat.
    change (length (str ">")) with 1%nat.
    change (length (str "|=|")) with 3%nat. cbn [length]. lia.
Qed.

Lemma format_pos_columns_witness :
  exists a b line,
    format_pos [] (str "hello world") 5 = Ret (Some (line ++ [0]))
    /\ line = a ++ str "|=|" ++ b ++ [10]
    /\ a = replicate
             (27 - length (flat_map escaped
                             (left_window (str "hello world") 5))) 32
           ++ str "<" ++ flat_map escaped (left_window (str "hello world") 5)
    /\ b = flat_map escaped (right_window (str "hello world") 5) ++ str ">"
           ++ replicate
                (27 - length (flat_map escaped
                                (right_window (str "hello world") 5))) 32
    /\ length a = 28%nat /\ length b = 28%nat /\ length line = 60%nat.
Proof.
  apply (format_pos_columns (str "hello world") 5).
  - split; [lia | vm_compute; discriminate].
  - change (cstr (str "hello world"))
      with [104; 101; 108; 108; 111; 32; 119; 111; 114; 108; 100].
    bytes.
  - apply Nat.ltb_lt. vm_compute. reflexivity.
  - apply Nat.ltb_lt. vm_compute. reflexivity.
Defined.

(** X19: [format_pos] returns NULL when [asprintf] fails, and what it
    returns on the heap that grants everything when its three allocations
    are granted. *)
Theorem format_pos_asprintf_failure (h : heap) (text : list Z) (pos : Z) :
  0 <= pos <= Z.of_nat (strlen text) ->
  Forall byte_range (cstr text) ->
  fst (alloc h) = true -> fst (alloc (after h)) = true ->
  format_pos h text pos
  = if fst (alloc (after (after h)))
    then Ret (Some (layout (flat_map escaped (left_window text pos))
                      (flat_map escaped (right_window text pos)) ++ [0]))
    else Ret None.
Proof.
  intros Hpos Hrange H1 H2.
  rewrite (format_pos_heap h text pos H1 H2).
  rewrite (format_pos_bytes text pos Hpos Hrange). cbn [mbind result_bind].
  now destruct (fst (alloc (after (after h)))).
Qed.

Lemma format_pos_asprintf_failure_witness :
  format_pos [true; true; false] (str "hello world") 5 = Ret None.
Proof.
  apply (format_pos_asprintf_failure [true; true; false]
           (str "hello world") 5).
  - split; [lia | vm_compute; discriminate].
  - change (cstr (str "hello world"))
      with [104; 101; 108; 108; 111; 32; 119; 111; 114; 108; 100].
    bytes.
  - reflexivity.
  - reflexivity.
Defined.

Lemma escape_calloc_failure (h : heap) (text : list Z) (cnt : Z) :
  escape (false :: h) text cnt
  = if (clamp text cnt =? 0)%nat then Ret None else Undef.
Proof. reflexivity. Qed.

(** X20: [escape] writes through the pointer that [CALLOC] left NULL, so
    [format_pos] does not return NULL when the allocation for a window that
    is not empty fails: the behaviour is undefined.  It returns NULL when
    the window is empty. *)
Theorem format_pos_calloc_failure (h : heap) (text : list Z) (pos : Z) :
  0 <= pos <= Z.of_nat (strlen text) ->
  format_pos (false :: h) text pos = if pos =? 0 then Ret None else Undef.
Proof.
  intros Hpos. pose proof (strlen_le_length text) as Hlen.
  unfold format_pos. cbv zeta.
  assert (Hbefore : (if pos >? 28 then 28 else pos) = Z.min pos 28).
  { destruct (Z.gtb_spec pos 28); lia. }
  rewrite Hbefore. unfold offset.
  destruct (Z.leb_spec 0 (pos - Z.min pos 28)); [|lia].
  destruct (Z.leb_spec (pos - Z.min pos 28) (Z.of_nat (length text))); [|lia].
  cbn [andb mbind result_bind].
  rewrite (escape_calloc_failure h
             (drop (Z.to_nat (pos - Z.min pos 28)) text)).
  rewrite clamp_within by (rewrite strlen_drop; lia).
  destruct (Z.eqb_spec pos 0) as [->|Hne]; [reflexivity|].
  destruct (Nat.eqb_spec (Z.to_nat (Z.min pos 28)) 0); [lia|]. reflexivity.
Qed.

Lemma format_pos_calloc_failure_witness :
  format_pos [false] (str "hello world") 5 = Undef
  /\ format_pos [false] (str "hello world") 0 = Ret None.
Proof.
  split.
  - apply (format_pos_calloc_failure [] (str "hello world") 5).
    split; [lia | vm_compute; discriminate].
  - apply (format_pos_calloc_failure [] (str "hello world") 0).
    split; [lia | vm_compute; discriminate].
Defined.

(** X21: outside the string, [format_pos] has no defined behaviour: for a
    negative offset and for one beyond the terminator, [text + pos] is not
    a pointer into the text. *)
Theorem format_pos_out_of_range (text : list Z) (pos : Z) :
  pos < 0 \/ Z.of_nat (length text) < pos ->
  format_pos [] text pos = Undef.
Proof.
  intros Hpos. unfold format_pos. cbv zeta.
  destruct (offset text (pos - (if pos >? 28 then 28 else pos))) as [lp|];
    cbn [mbind result_bind]; [|reflexivity].
  destruct (escape_granted lp (if pos >? 28 then 28 else pos))
    as [-> | [l ->]]; cbn [mbind result_bind]; [reflexivity|].
  unfold offset.
  destruct (Z.leb_spec 0 pos);
    destruct (Z.leb_spec pos (Z.of_nat (length text)));
    try lia; reflexivity.
Qed.

Lemma format_pos_out_of_range_witness :
  format_pos [] (str "abc") 7 = Undef /\ format_pos [] (str "abc") (-1) = Undef.
Proof.
  split.
  - apply (format_pos_out_of_range (str "abc") 7). right. reflexivity.
  - apply (format_pos_out_of_range (str "abc") (-1)). left. reflexivity.
Defined.

Lemma clamp_print_chars (text : list Z) (cnt : Z) :
  clamp text (if cnt <? 0 then Z.of_nat (strlen text) else cnt)
  = clamp text cnt.
Proof.
  destruct (Z.lt_ge_cases cnt 0) as [H|H].
  - rewrite (proj2 (Z.ltb_lt _ _) H). unfold clamp.
    rewrite (proj2 (Z.ltb_lt _ _) H), Z.ltb_irrefl. cbn [orb].
    destruct (Z.ltb_spec (Z.of_nat (strlen text)) 0); [lia|].
    cbn [orb]. lia.
  - now rewrite (proj2 (Z.ltb_ge _ _) H).
Qed.

(** X22: [print_chars] returns the number of characters it writes: 3 for
    "nil", which it writes for a NULL text whatever the count, and for a
    text of [unsigned char] values the length of the escape of its first
    [cnt] characters, which is what it appends to the stream.  With a NULL
    stream it returns that length and writes nothing. *)
Theorem print_chars_count (h : heap) (o : list Z) (text : option (list Z))
    (cnt : Z) :
  fst (alloc h) = true ->
  (forall t, text = Some t -> Forall byte_range (take (clamp t cnt) t)) ->
  exists w,
    w = match text with
        | None => str "nil"
        | Some t => flat_map escaped (take (clamp t cnt) t)
        end
    /\ print_chars h (Some o) text cnt
       = Ret (Z.of_nat (length w), Some (o ++ w))
    /\ (text <> None ->
        print_chars h None text cnt = Ret (Z.of_nat (length w), None)).
Proof.
  intros Hh Ht. destruct text as [t|].
  - eexists. split; [reflexivity|]. unfold print_chars.
    specialize (Ht t eq_refl).
    rewrite escape_spec; rewrite ?clamp_print_chars; try assumption.
    cbn [mbind result_bind fputs].
    pose proof (flat_escaped_nonzero _ (window_nonzero t cnt)) as Hnz.
    unfold cstr. rewrite (strlen_app_nul _ [] Hnz).
    rewrite take_app_length. now split.
  - exists (str "nil"). split; [reflexivity|]. split; [reflexivity|].
    intros Hne. now contradiction Hne.
Qed.

Lemma print_chars_count_witness :
  exists w,
    w = flat_map escaped (take (clamp [97; 9; 200] (-1)) [97; 9; 200])
    /\ print_chars [] (Some (str "x=")) (Some [97; 9; 200]) (-1)
       = Ret (Z.of_nat (length w), Some (str "x=" ++ w))
    /\ (Some [97; 9; 200] <> None ->
        print_chars [] None (Some [97; 9; 200]) (-1)
        = Ret (Z.of_nat (length w), None)).
Proof.
  apply (print_chars_count [] (str "x=") (Some [97; 9; 200]) (-1));
    [reflexivity|].
  intros t [= <-].
  change (take (clamp [97; 9; 200] (-1)) [97; 9; 200]) with [97; 9; 200].
  bytes.
Defined.

(** X23: [print_pos] appends the line of [format_pos] to the stream, and
    nothing when [asprintf] fails. *)
Theorem print_pos_line (h : heap) (o text : list Z) (pos : Z) :
  0 <= pos <= Z.of_nat (strlen text) ->
  Forall byte_range (cstr text) ->
  fst (alloc h) = true -> fst (alloc (after h)) = true ->
  print_pos h (Some o) text pos
  = Ret (Some (if fst (alloc (after (after h)))
               then o ++ layout (flat_map escaped (left_window text pos))
                           (flat_map escaped (right_window text pos))
               else o)).
Proof.
  intros Hpos Hrange H1 H2. unfold print_pos.
  rewrite (format_pos_heap h text pos H1 H2).
  rewrite (format_pos_bytes text pos Hpos Hrange). cbn [mbind result_bind].
  destruct (fst (alloc (after (after h)))); [|reflexivity].
  cbn [fputs].
  destruct (windows_bytes text pos Hpos Hrange) as [[Hl _] [Hr _]].
  pose proof (layout_nonzero _ _ (flat_escaped_nonzero _ Hl)
                (flat_escaped_nonzero _ Hr)) as Hnz.
  unfold cstr. rewrite (strlen_app_nul _ [] Hnz).
  now rewrite take_app_length.
Qed.

Lemma print_pos_line_witness :
  print_pos [] (Some (str "at ")) (str "hello world") 5
  = Ret (Some (str "at "
               ++ layout (flat_map escaped (left_window (str "hello world") 5))
                    (flat_map escaped
                       (right_window (str "hello world") 5)))).
Proof.
  apply (print_pos_line [] (str "at ") (str "hello world") 5).
  - split; [lia | vm_compute; discriminate].
  - change (cstr (str "hello world"))
      with [104; 101; 108; 108; 111; 32; 119; 111; 114; 108; 100].
    bytes.
  - reflexivity.
  - reflexivity.
Defined.

(** ** Memory streams *)

Section MemoryStreamFacts.

Variable BUFSIZ : Z.
Hypothesis BUFSIZ_pos : 0 < BUFSIZ.

Lemma fread_file_lim_rewind (h : heap) (f : stream) :
  fread_file_lim BUFSIZ h (rewind f) MAX_READ_LEN = Some None
  \/ hits f MAX_READ_LEN = false
     /\ fread_file_lim BUFSIZ h (rewind f) MAX_READ_LEN
        = Some (Some (take (Z.to_nat (obtained f MAX_READ_LEN)) (rest f)
                      ++ [0],
                      obtained f MAX_READ_LEN)).
Proof.
  pose proof (fread_file_lim_closed BUFSIZ BUFSIZ_pos (rewind f) MAX_READ_LEN
                ltac:(unfold MAX_READ_LEN; lia)) as Hc.
  unfold fread_file_lim in *.
  destruct (fread_loop_any_heap BUFSIZ (S (length (rest (rewind f)))) h
              (rewind f) MAX_READ_LEN [] 0 0) as [-> | ->]; [now left|].
  rewrite Hc. cbn [ferror rewind orb].
  change (hits (rewind f) MAX_READ_LEN) with (hits f MAX_READ_LEN).
  destruct (hits f MAX_READ_LEN); [now left | now right].
Qed.

Lemma close_memstream_granted (ms : memstream) (f : stream) :
  ms_stream ms = Some f -> faulty f = false ->
  close_memstream BUFSIZ [] false ms
  = Some (Ret (0, {| ms_stream := Some f;
                     ms_buf := Some (take (Z.to_nat MAX_READ_LEN) (rest f)
                                     ++ [0]);
                     ms_size := Z.min MAX_READ_LEN
                                  (Z.of_nat (length (rest f))) |})).
Proof.
  intros Hs Hfault. unfold close_memstream. rewrite Hs.
  rewrite (fread_file_lim_closed BUFSIZ BUFSIZ_pos (rewind f) MAX_READ_LEN)
    by (unfold MAX_READ_LEN; lia).
  cbn [ferror rewind orb].
  change (hits (rewind f) MAX_READ_LEN) with (hits f MAX_READ_LEN).
  change (obtained (rewind f) MAX_READ_LEN) with (obtained f MAX_READ_LEN).
  unfold hits. rewrite Hfault. cbn [andb mbind option_bind rest].
  assert (Hr : readable f = length (rest f)).
  { unfold readable, faulty in *. destruct (fault f) as [k|]; [|reflexivity].
    apply Nat.ltb_ge in Hfault. lia. }
  unfold obtained. rewrite Hr.
  assert (Ht : take (Z.to_nat (Z.min MAX_READ_LEN
                                 (Z.of_nat (length (rest f))))) (rest f)
               = take (Z.to_nat MAX_READ_LEN) (rest f)).
  { destruct (Z.le_ge_cases MAX_READ_LEN (Z.of_nat (length (rest f)))).
    - now rewrite Z.min_l.
    - rewrite Z.min_r, Nat2Z.id by assumption.
      rewrite firstn_all. symmetry. apply take_ge. lia. }
  change (rest (rewind f)) with (rest f). now rewrite Ht.
Qed.

(** X24: on a temporary file that is read back without an error,
    [close_memstream] returns 0 and leaves in the handle the first
    MAX_READ_LEN bytes written to the stream, with a terminator, and
    their number: everything that was written when that is no more than
    32 MiB. *)
Theorem close_memstream_reads_back (ms : memstream) (f : stream) :
  ms_stream ms = Some f -> faulty f = false ->
  close_memstream BUFSIZ [] false ms
  = Some (Ret (0, {| ms_stream := Some f;
                     ms_buf := Some (take (Z.to_nat MAX_READ_LEN) (rest f)
                                     ++ [0]);
                     ms_size := Z.min MAX_READ_LEN
                                  (Z.of_nat (length (rest f))) |}))
  /\ (Z.of_nat (length (rest f)) <= MAX_READ_LEN ->
      take (Z.to_nat MAX_READ_LEN) (rest f) = rest f
      /\ Z.min MAX_READ_LEN (Z.of_nat (length (rest f)))
         = Z.of_nat (length (rest f))).
Proof.
  intros Hs Hfault. split; [now apply close_memstream_granted|].
  intros Hle. split; [apply take_ge; lia | lia].
Qed.

(** X25: when [fclose] fails, [close_memstream] returns -1 and leaves
    neither a buffer nor a size in the handle, whatever was read back and
    whatever the heap. *)
Theorem close_memstream_fclose_failure (h : heap) (ms : memstream)
    (f : stream) :
  ms_stream ms = Some f ->
  close_memstream BUFSIZ h true ms
  = Some (Ret (-1, {| ms_stream := Some f; ms_buf := None;
                      ms_size := 0 |})).
Proof.
  intros Hs. unfold close_memstream. rewrite Hs.
  now destruct (fread_file_lim_rewind h f) as [-> | [_ ->]].
Qed.

(** X26: when reading the temporary file back fails, [close_memstream]
    still returns 0 once [fclose] succeeds: the handle holds no buffer, and
    the size it had before the call. *)
Theorem close_memstream_read_failure (h : heap) (ms : memstream)
    (f : stream) :
  ms_stream ms = Some f -> hits f MAX_READ_LEN = true ->
  close_memstream BUFSIZ h false ms
  = Some (Ret (0, {| ms_stream := Some f; ms_buf := None;
                     ms_size := ms_size ms |})).
Proof.
  intros Hs Hhits. unfold close_memstream. rewrite Hs.
  destruct (fread_file_lim_rewind h f) as [-> | [Hno _]];
    [reflexivity | congruence].
Qed.

(** X27: the life of a handle: [init_memstream] on a fresh temporary
    file returns 0 with neither a buffer nor a size in the handle, and
    after its user has written no more than MAX_READ_LEN bytes to the
    stream, [close_memstream] returns 0 and the handle holds what was
    written, with a terminator, and its length.  When [tmpfile] fails,
    [init_memstream] returns -1, and the stream that [close_memstream]
    would rewind is NULL. *)
Theorem memstream_round_trip (data : list Z) :
  Z.of_nat (length data) <= MAX_READ_LEN ->
  init_memstream (Some (file []))
  = (0, {| ms_stream := Some (file []); ms_buf := None; ms_size := 0 |})
  /\ close_memstream BUFSIZ [] false
       (ms_written data (snd (init_memstream (Some (file [])))))
     = Some (Ret (0, {| ms_stream := Some (file data);
                        ms_buf := Some (data ++ [0]);
                        ms_size := Z.of_nat (length data) |}))
  /\ fst (init_memstream None) = -1
  /\ (forall (h : heap) (eof : bool),
        close_memstream BUFSIZ h eof (snd (init_memstream None))
        = Some Undef).
Proof.
  intros Hle. split; [reflexivity|]. split; [|split; reflexivity].
  rewrite (close_memstream_granted _ (file data)); [|reflexivity..].
  cbn [rest file]. rewrite take_ge by lia.
  now rewrite Z.min_r by lia.
Qed.

End MemoryStreamFacts.

Lemma close_memstream_reads_back_witness :
  close_memstream 8192 [] false
    (snd (init_memstream (Some (file (str "hello")))))
  = Some (Ret (0, {| ms_stream := Some (file (str "hello"));
                     ms_buf := Some (str "hello" ++ [0]);
                     ms_size := 5 |})).
Proof.
  exact (proj1 (close_memstream_reads_back 8192 ltac:(lia)
                  (snd (init_memstream (Some (file (str "hello")))))
                  (file (str "hello")) eq_refl eq_refl)).
Defined.

Lemma close_memstream_fclose_failure_witness :
  close_memstream 8192 [] true
    (snd (init_memstream (Some (file (str "hello")))))
  = Some (Ret (-1, {| ms_stream := Some (file (str "hello"));
                      ms_buf := None; ms_size := 0 |})).
Proof.
  exact (close_memstream_fclose_failure 8192 ltac:(lia) []
           (snd (init_memstream (Some (file (str "hello")))))
           (file (str "hello")) eq_refl).
Defined.

Lemma close_memstream_read_failure_witness :
  close_memstream 8192 [] false
    (snd (init_memstream
            (Some {| rest := str "hello"; fault := Some 2%nat;
                     ferror := false |})))
  = Some (Ret (0, {| ms_stream := Some {| rest := str "hello";
                                          fault := Some 2%nat;
                                          ferror := false |};
                     ms_buf := None; ms_size := 0 |})).
Proof.
  exact (close_memstream_read_failure 8192 ltac:(lia) []
           (snd (init_memstream
                   (Some {| rest := str "hello"; fault := Some 2%nat;
                            ferror := false |})))
           {| rest := str "hello"; fault := Some 2%nat; ferror := false |}
           eq_refl eq_refl).
Defined.

Lemma memstream_round_trip_witness :
  init_memstream (Some (file []))
  = (0, {| ms_stream := Some (file []); ms_buf := None; ms_size := 0 |})
  /\ close_memstream 8192 [] false
       (ms_written (str "hello") (snd (init_memstream (Some (file [])))))
     = Some (Ret (0, {| ms_stream := Some (file (str "hello"));
                        ms_buf := Some (str "hello" ++ [0]);
                        ms_size := Z.of_nat (length (str "hello")) |}))
  /\ fst (init_memstream None) = -1
  /\ (forall (h : heap) (eof : bool),
        close_memstream 8192 h eof (snd (init_memstream None))
        = Some Undef).
Proof.
  apply (memstream_round_trip 8192 ltac:(lia) (str "hello")).
  vm_compute. discriminate.
Defined.
